(** * url-parser: the bracket scanner, the de-duplicating fetch queue and
    the retrying page processor, embedded in Rocq.

    Strings are JavaScript strings: finite sequences of UTF-16 code units.
    A code unit is an [N]; [js "..."] turns a literal into such a sequence.

    [parseUrls] and [addProtocol] are functions on such strings, with the
    two regular expressions of the source run by a small backtracking
    matcher.  [fetchWithRetry], [processUrl] and [main] on a file are
    computations over a world (the network as an oracle, the trace of GETs,
    sleeps and lines written) that may throw.  [main] on standard input is a
    state machine: one transition for each turn of the event loop, with a
    clock in milliseconds. *)

From Stdlib Require Import NArith Ascii String.
From stdpp Require Import base list gmap.

#[local] Set Warnings "-clear-no-such-hyp".
Open Scope N_scope.

(** ** Code units and strings *)

Abbreviation cu := N.
Abbreviation jstr := (list N).

Fixpoint js (s : string) : jstr :=
  match s with
  | EmptyString => []
  | String a t => N_of_ascii a :: js t
  end.

Definition LBR : cu := 91.   (* [ *)
Definition RBR : cu := 93.   (* ] *)
Definition BSL : cu := 92.   (* \ *)

(** ** A backtracking matcher for the regular expressions of the source *)

(** [\s] of ECMAScript: WhiteSpace and LineTerminator code points. *)
Definition isSpace (c : cu) : bool :=
  (9 <=? c) && (c <=? 13)
  || (c =? 32) || (c =? 160) || (c =? 5760)
  || (8192 <=? c) && (c <=? 8202)
  || (c =? 8232) || (c =? 8233) || (c =? 8239) || (c =? 8287)
  || (c =? 12288) || (c =? 65279).

(** Canonicalisation of the [i] flag (no [u] flag) on the ASCII range: a
    lower-case letter becomes its capital.  A code unit of 128 or more never
    canonicalises to an ASCII one, so it is left as it is: every literal of
    the two patterns below is ASCII. *)
Definition canon (c : cu) : cu :=
  if (97 <=? c) && (c <=? 122) then c - 32 else c.

Inductive regex : Type :=
| Eps                       (* the empty pattern *)
| Lit (c : cu)              (* a pattern character, compared under [i] *)
| Cls (p : cu -> bool)      (* a character class *)
| Seq (r1 r2 : regex)
| Alt (r1 r2 : regex)       (* r1|r2, r1 tried first *)
| Opt (r : regex)           (* r?, greedy *)
| Plus (r : regex).         (* r+, greedy *)

(** [ends r s]: the texts left after each way [r] matches a prefix of [s],
    in the order in which a backtracking matcher tries them.  [iterate]
    is the greedy [r+]: after one match of [r], more rounds first, then
    stopping there.  An iteration that consumes nothing is rejected by
    ECMAScript; here every iteration is a class and consumes one code unit,
    so [S (length s)] rounds are never exhausted. *)
Fixpoint iterate (e : jstr -> list jstr) (fuel : nat) (s : jstr)
  : list jstr :=
  match fuel with
  | O => []
  | S f => flat_map (fun s' => iterate e f s' ++ [s']) (e s)
  end.

Fixpoint ends (r : regex) (s : jstr) : list jstr :=
  match r with
  | Eps => [s]
  | Lit c => match s with
             | ch :: t => if canon ch =? canon c then [t] else []
             | [] => []
             end
  | Cls p => match s with
             | ch :: t => if p ch then [t] else []
             | [] => []
             end
  | Seq r1 r2 => flat_map (ends r2) (ends r1 s)
  | Alt r1 r2 => ends r1 s ++ ends r2 s
  | Opt r1 => ends r1 s ++ [s]
  | Plus r1 => iterate (ends r1) (S (length s)) s
  end.

(** The match at the start of [s]: what is left after it. *)
Definition matchHere (r : regex) (s : jstr) : option jstr := head (ends r s).

(** [RegExp.prototype.exec] with the [g] flag.  [lastIndex] is kept as the
    text from that index on ([s]); the result is [match[0]] and the text
    from the new [lastIndex] on.  Neither pattern looks behind, so a match
    depends on that text only. *)
Fixpoint exec (r : regex) (s : jstr) : option (jstr * jstr) :=
  match matchHere r s with
  | Some rest => Some (take (length s - length rest) s, rest)
  | None => match s with
            | [] => None
            | _ :: t => exec r t
            end
  end.

(** A run of pattern characters. *)
Definition lits (w : jstr) : regex := foldr (fun c r => Seq (Lit c) r) Eps w.

Definition urlChar (c : cu) : bool :=
  negb (isSpace c || (c =? LBR) || (c =? RBR)).

(** [https?:\/\/] *)
Definition httpRegex : regex :=
  Seq (lits (js "http")) (Seq (Opt (Lit 115)) (lits (js "://"))).

(** [/(?:https?:\/\/|www\.)[^\s\[\]]+/gi] *)
Definition urlRegex : regex :=
  Seq (Alt httpRegex (lits (js "www."))) (Plus (Cls urlChar)).

(** ** parseUrls *)

(** The loop [while ((match = urlRegex.exec(buffer)) !== null) last = match[0]]. *)
Fixpoint lastMatchLoop (fuel : nat) (s : jstr) (last : option jstr)
  : option jstr :=
  match fuel with
  | O => last
  | S f => match exec urlRegex s with
           | None => last
           | Some (m, rest) => lastMatchLoop f rest (Some m)
           end
  end.

Definition lastUrl (buffer : jstr) : option jstr :=
  lastMatchLoop (S (length buffer)) buffer None.

Record scan : Type := Scan {
  results : list jstr;
  depth : nat;
  buffer : jstr;
  lastChar : option cu       (* [None] is the empty string *)
}.

Definition scan0 : scan := Scan [] 0 [] None.

Definition isBracket (ch : cu) : bool := (ch =? LBR) || (ch =? RBR).

Definition isEscapedBracket (ch : cu) (prev : option cu) : bool :=
  isBracket ch && bool_decide (prev = Some BSL).

(** [if (last) results.push(last)]: the empty string is falsy. *)
Definition pushLast (res : list jstr) (last : option jstr) : list jstr :=
  match last with
  | Some (c :: u) => res ++ [c :: u]
  | _ => res
  end.

(** One turn of the [for] loop of [parseUrls]. *)
Definition scanStep (st : scan) (ch : cu) : scan :=
  let prev := lastChar st in
  let esc := isEscapedBracket ch prev in
  if (ch =? LBR) && negb esc then
    let d := S (depth st) in
    Scan (results st) d (if (d =? 1)%nat then [] else buffer st) (Some ch)
  else if (ch =? RBR) && negb esc then
    if (0 <? depth st)%nat then
      let d := (depth st - 1)%nat in
      if (d =? 0)%nat then
        Scan (pushLast (results st) (lastUrl (buffer st))) d (buffer st) (Some ch)
      else Scan (results st) d (buffer st) (Some ch)
    else Scan (results st) (depth st) (buffer st) (Some ch)
  else
    if (1 <=? depth st)%nat then
      if esc then Scan (results st) (depth st) (buffer st ++ [ch]) (Some ch)
      else if negb (ch =? LBR) && negb (ch =? RBR)
           then Scan (results st) (depth st) (buffer st ++ [ch]) (Some ch)
           else Scan (results st) (depth st) (buffer st) (Some ch)
    else Scan (results st) (depth st) (buffer st) (Some ch).

Definition scanFrom (st : scan) (text : jstr) : scan := foldl scanStep st text.

Definition parseUrls (text : jstr) : list jstr := results (scanFrom scan0 text).

(** *** What the scanner's words mean: tokens, groups, escapes *)

(** [w] is a prefix of [s] up to the case of ASCII letters. *)
Fixpoint ciPrefix (w s : jstr) : bool :=
  match w, s with
  | [], _ => true
  | c :: w', ch :: s' => (canon ch =? canon c) && ciPrefix w' s'
  | _ :: _, [] => false
  end.

(** The length of the [https://], [http://] or [www.] that [s] begins with. *)
Definition schemeLen (s : jstr) : option nat :=
  if ciPrefix (js "https://") s then Some 8%nat
  else if ciPrefix (js "http://") s then Some 7%nat
  else if ciPrefix (js "www.") s then Some 4%nat
  else None.

Fixpoint takeRun (p : cu -> bool) (s : jstr) : jstr :=
  match s with
  | c :: t => if p c then c :: takeRun p t else []
  | [] => []
  end.

Fixpoint dropRun (p : cu -> bool) (s : jstr) : jstr :=
  match s with
  | c :: t => if p c then dropRun p t else s
  | [] => []
  end.

(** The length of the URL token that starts at the head of [s]: a scheme
    or [www.] followed by the longest run, not empty, of characters that
    are neither white space nor brackets. *)
Definition tokenLen (s : jstr) : option nat :=
  match schemeLen s with
  | Some n =>
      match takeRun urlChar (drop n s) with
      | [] => None
      | run => Some (n + length run)%nat
      end
  | None => None
  end.

(** The leftmost token of [s] and the text after it. *)
Fixpoint firstToken (s : jstr) : option (jstr * jstr) :=
  match tokenLen s with
  | Some n => Some (take n s, drop n s)
  | None => match s with
            | [] => None
            | _ :: t => firstToken t
            end
  end.

Fixpoint tokensLoop (fuel : nat) (s : jstr) : list jstr :=
  match fuel with
  | O => []
  | S f => match firstToken s with
           | None => []
           | Some (m, rest) => m :: tokensLoop f rest
           end
  end.

(** The URL tokens of a text, left to right. *)
Definition urlTokens (s : jstr) : list jstr := tokensLoop (S (length s)) s.

(** A text is closed at depth 1 by [ch] when [ch] is a [']'] that is not
    escaped. *)
Definition closesGroup (st : scan) (ch : cu) : bool :=
  (ch =? RBR) && negb (isEscapedBracket ch (lastChar st))
  && (depth st =? 1)%nat.

(** The scanner, recording the buffer of every group it closes instead of
    the URL it picks there. *)
Definition groupStep (st : scan) (ch : cu) : scan :=
  let st' := scanStep st ch in
  Scan (if closesGroup st ch then results st ++ [buffer st] else results st)
       (depth st') (buffer st') (lastChar st').

Definition closedGroups (text : jstr) : list jstr :=
  results (foldl groupStep scan0 text).

(** Texts with balanced brackets: a sequence of characters and groups. *)
Inductive btext : Type :=
| BEnd
| BChar (c : cu) (rest : btext)
| BGroup (inner rest : btext).

Fixpoint render (b : btext) : jstr :=
  match b with
  | BEnd => []
  | BChar c rest => c :: render rest
  | BGroup inner rest => LBR :: render inner ++ RBR :: render rest
  end.

(** The text of a group with the brackets nested in it taken out. *)
Fixpoint flat (b : btext) : jstr :=
  match b with
  | BEnd => []
  | BChar c rest => c :: flat rest
  | BGroup inner rest => flat inner ++ flat rest
  end.

Fixpoint topGroups (b : btext) : list jstr :=
  match b with
  | BEnd => []
  | BChar _ rest => topGroups rest
  | BGroup inner rest => flat inner :: topGroups rest
  end.

(** Brackets occur as group delimiters only. *)
Fixpoint plainChars (b : btext) : bool :=
  match b with
  | BEnd => true
  | BChar c rest => negb (isBracket c) && plainChars rest
  | BGroup inner rest => plainChars inner && plainChars rest
  end.

(** The brackets of [text] are balanced, [d] of them being open before it. *)
Fixpoint balancedFrom (d : nat) (text : jstr) : bool :=
  match text with
  | [] => (d =? 0)%nat
  | c :: t =>
      if c =? LBR then balancedFrom (S d) t
      else if c =? RBR then
        match d with
        | O => false
        | S d' => balancedFrom d' t
        end
      else balancedFrom d t
  end.

Definition balanced (text : jstr) : bool := balancedFrom 0 text.

(** No bracket of [text] comes right after a backslash; [prev] is the
    character before [text]. *)
Fixpoint unescaped (prev : option cu) (text : jstr) : bool :=
  match text with
  | [] => true
  | ch :: t => negb (isEscapedBracket ch prev) && unescaped (Some ch) t
  end.

(** The number of backslashes that [pre] ends with. *)
Definition trailingBackslashes (pre : jstr) : nat :=
  length (takeRun (fun c => c =? BSL) (reverse pre)).

(** ** addProtocol *)

(** [/^https?:\/\//i]; the anchor is the match at the start of the text. *)
Definition protocolRegex : regex := httpRegex.

Definition addProtocol (url : jstr) : jstr :=
  if negb (bool_decide (is_Some (matchHere protocolRegex url)))
  then js "https://" ++ url
  else url.

(** ** De-duplication *)

(** The callback of [urls.filter]: [seen.has(u)], then [seen.add(u)]. *)
Definition admitUrl (seen : gset jstr) (u : jstr) : bool * gset jstr :=
  if bool_decide (u ∈ seen) then (false, seen) else (true, {[u]} ∪ seen).

(** [urls.filter(...)] over the shared [seen]: the URLs kept and the set
    afterwards. *)
Fixpoint filterSeen (urls : list jstr) (seen : gset jstr)
  : list jstr * gset jstr :=
  match urls with
  | [] => ([], seen)
  | u :: rest =>
      let '(keep, seen1) := admitUrl seen u in
      let '(kept, seen2) := filterSeen rest seen1 in
      (if keep then u :: kept else kept, seen2)
  end.

(** The first occurrence of every element, in order. *)
Fixpoint firstOccurrences (l : list jstr) : list jstr :=
  match l with
  | [] => []
  | u :: rest => u :: filter (fun v => v ≠ u) (firstOccurrences rest)
  end.

(** ** The world of a run: network, clock of waits, the two output channels *)

Record response : Type := Response {
  ok : bool;
  status : N;
  body : option jstr         (* [None]: reading the body fails *)
}.

(** What [fetch] settles to. *)
Inductive fetched : Type :=
| Rejected                   (* network failure *)
| Resolved (res : response).

Inductive error : Type :=
| FetchError                 (* [fetch] rejected *)
| StatusError (status : N)   (* [new Error(`Status ${res.status}`)] *)
| BodyError.                 (* [res.text()] rejected *)

Record output : Type := Output {
  o_url : jstr;
  o_title : option jstr;
  o_email : option jstr
}.

Inductive diagnostic : Type :=
| FailedToFetch (url : jstr) (err : error)
| FailedToRead.

Inductive event : Type :=
| Get (url : jstr)           (* [fetch(url)] *)
| Sleep (ms : N)             (* [await sleep(ms)] *)
| Stderr (d : diagnostic)    (* [console.error] *)
| Stdout (o : output).       (* [console.log(JSON.stringify(output))] *)

Record world : Type := World {
  calls : nat;               (* the number of [fetch] calls so far *)
  trace : list event
}.

Definition world0 : world := World 0 [].

Inductive result (A : Type) : Type :=
| Ret (a : A)
| Throw (e : error).
Arguments Ret {A} a.
Arguments Throw {A} e.

(** A computation that may throw, over the world. *)
Definition M (A : Type) : Type := world -> result A * world.

Definition ret {A} (a : A) : M A := fun w => (Ret a, w).

Definition throw {A} (e : error) : M A := fun w => (Throw e, w).

Definition bind {A B} (m : M A) (k : A -> M B) : M B :=
  fun w => match m w with
           | (Ret a, w') => k a w'
           | (Throw e, w') => (Throw e, w')
           end.

Definition tryCatch {A} (m : M A) (h : error -> M A) : M A :=
  fun w => match m w with
           | (Ret a, w') => (Ret a, w')
           | (Throw e, w') => h e w'
           end.

Definition emit (e : event) : M unit :=
  fun w => (Ret tt, World (calls w) (trace w ++ [e])).

Notation "x <- m ;; k" := (bind m (fun x => k))
  (at level 100, m at next level, right associativity).
Notation "m ;; k" := (bind m (fun _ => k))
  (at level 100, right associativity).

Fixpoint forEach {A} (l : list A) (f : A -> M unit) : M unit :=
  match l with
  | [] => ret tt
  | x :: rest => f x ;; forEach rest f
  end.

Definition sleep (ms : N) : M unit := emit (Sleep ms).

Definition truthy (s : option jstr) : bool :=
  match s with
  | Some (_ :: _) => true
  | _ => false
  end.

Section Run.

(** The network: what the [n]-th call of [fetch], on [url], settles to. *)
Variable net : nat -> jstr -> fetched.

(** The collaborators of [utils]. *)
Variable extractTitle : jstr -> option jstr.
Variable extractFirstEmail : jstr -> option jstr.
Variable hashEmail : jstr -> jstr -> jstr.

Definition fetch (url : jstr) : M response :=
  fun w =>
    let w' := World (S (calls w)) (trace w ++ [Get url]) in
    match net (calls w) url with
    | Rejected => (Throw FetchError, w')
    | Resolved res => (Ret res, w')
    end.

Definition text (res : response) : M jstr :=
  match body res with
  | Some html => ret html
  | None => throw BodyError
  end.

(** The body of either [try] block of [fetchWithRetry]. *)
Definition attempt (url : jstr) : M (option response) :=
  res <- fetch (addProtocol url) ;;
  if negb (ok res) then throw (StatusError (status res)) else ret (Some res).

Definition fetchWithRetry (url : jstr) : M (option response) :=
  tryCatch (attempt url)
    (fun err =>
       sleep 60000 ;;
       tryCatch (attempt url)
         (fun err2 => emit (Stderr (FailedToFetch url err2)) ;; ret None)).

(** The [output] object that [processUrl] builds from the page. *)
Definition recordOf (url : jstr) (secret : option jstr) (html : jstr)
  : output :=
  let title := extractTitle html in
  let email := extractFirstEmail html in
  Output url
    (if truthy title then title else None)
    (match email, secret with
     | Some (e :: m), Some (k :: y) => Some (hashEmail (e :: m) (k :: y))
     | _, _ => None
     end).

(** What [processUrl] does with a response it has got. *)
Definition report (url : jstr) (secret : option jstr) (res : response)
  : M unit :=
  html <- text res ;;
  emit (Stdout (recordOf url secret html)).

Definition processUrl (url : jstr) (secret : option jstr) : M unit :=
  res <- fetchWithRetry url ;;
  match res with
  | None => ret tt
  | Some res => report url secret res
  end.

(** The body of the loop of [main] over [uniqueUrls]. *)
Definition visit (secret : option jstr) (url : jstr) : M unit :=
  processUrl url secret ;; sleep 1000.

(** [main] with a file argument; [file] is what [readFileSync] gives,
    [None] when it throws. *)
Definition mainFile (file : option jstr) (secret : option jstr) : M unit :=
  match file with
  | None => emit (Stderr FailedToRead)
  | Some text =>
      let urls := parseUrls text in
      let uniqueUrls := (filterSeen urls ∅).1 in
      forEach uniqueUrls (visit secret)
  end.

(** *** [main] on standard input

    Every handler runs to completion; [drain] is suspended at one of its two
    [await]s in between.  A task is one call of [processUrl]: the handlers of
    standard input that run while it is pending touch the buffer, [seen] and
    the queue only, so its effects on the world are taken at its end: the
    world of a state with a task pending does not hold the task's first GET
    yet, which the source has issued by then, and holds it, with all that
    follows it, once the task has settled. *)

Inductive worker : Type :=
| Idle                       (* no call of [drain] is pending *)
| Running (url : jstr)       (* at [await processUrl(next, secret)] *)
| Sleeping (since : N).      (* at [await sleep(1000)], begun at [since] *)

Inductive proc : Type :=
| Live
| Exited (code : N)          (* [process.exit(code)] *)
| Crashed (e : error).       (* the promise of [drain] rejected, unhandled *)

Definition isLive (p : proc) : bool :=
  match p with
  | Live => true
  | _ => false
  end.

Record stream : Type := Stream {
  sbuffer : jstr;
  seen : gset jstr;
  queue : list jstr;
  processing : bool;
  ended : bool;
  task : worker;
  state : proc;
  sworld : world;
  now : N;                   (* milliseconds *)
  enqueued : list jstr;      (* ghost: the arguments of [enqueue], in order *)
  starts : list (jstr * N)   (* ghost: every [queue.shift()], with its time *)
}.

Definition stream0 : stream :=
  Stream [] ∅ [] false false Idle Live world0 0 [] [].

Definition setBuffer (b : jstr) (st : stream) : stream :=
  Stream b (seen st) (queue st) (processing st) (ended st) (task st)
         (state st) (sworld st) (now st) (enqueued st) (starts st).

Definition setNow (t : N) (st : stream) : stream :=
  Stream (sbuffer st) (seen st) (queue st) (processing st) (ended st)
         (task st) (state st) (sworld st) t (enqueued st) (starts st).

Definition setState (x : proc) (st : stream) : stream :=
  Stream (sbuffer st) (seen st) (queue st) (processing st) (ended st)
         (task st) x (sworld st) (now st) (enqueued st) (starts st).

Variable secret : option jstr.

(** The [finally] block of [drain], when the [try] block ended normally. *)
Definition drainFinally (st : stream) : stream :=
  let st' := Stream (sbuffer st) (seen st) (queue st) false (ended st) Idle
                    (state st) (sworld st) (now st) (enqueued st) (starts st)
  in
  if ended st' && bool_decide (queue st' = []) then setState (Exited 0) st'
  else st'.

(** The [finally] block of [drain], when [processUrl] threw: the error goes
    on once the block is left. *)
Definition drainFinallyThrow (e : error) (st : stream) : stream :=
  let st' := Stream (sbuffer st) (seen st) (queue st) false (ended st) Idle
                    (state st) (sworld st) (now st) (enqueued st) (starts st)
  in
  if ended st' && bool_decide (queue st' = []) then setState (Exited 0) st'
  else setState (Crashed e) st'.

(** The test of the [while] loop of [drain], up to the next [await]. *)
Definition drainLoop (st : stream) : stream :=
  match queue st with
  | next :: q =>
      Stream (sbuffer st) (seen st) q (processing st) (ended st)
             (Running next) (state st) (sworld st) (now st) (enqueued st)
             (starts st ++ [(next, now st)])
  | [] => drainFinally st
  end.

Definition drain (st : stream) : stream :=
  if processing st then st
  else drainLoop
         (Stream (sbuffer st) (seen st) (queue st) true (ended st) (task st)
                 (state st) (sworld st) (now st) (enqueued st) (starts st)).

Definition enqueue (u : jstr) (st : stream) : stream :=
  drain (Stream (sbuffer st) (seen st) (queue st ++ [u]) (processing st)
                (ended st) (task st) (state st) (sworld st) (now st)
                (enqueued st ++ [u]) (starts st)).

(** The body of [for (const url of urls)] in the [data] handler. *)
Definition admitStep (st : stream) (url : jstr) : stream :=
  if negb (bool_decide (url ∈ seen st)) then
    enqueue url
      (Stream (sbuffer st) ({[url]} ∪ seen st) (queue st) (processing st)
              (ended st) (task st) (state st) (sworld st) (now st)
              (enqueued st) (starts st))
  else st.

(** [s.lastIndexOf(c)] for a single character; [None] is [-1]. *)
Fixpoint lastIndexOf (c : cu) (s : jstr) : option nat :=
  match s with
  | [] => None
  | ch :: t => match lastIndexOf c t with
               | Some i => Some (S i)
               | None => if ch =? c then Some O else None
               end
  end.

(** The [data] handler. *)
Definition onData (chunk : jstr) (st : stream) : stream :=
  let st1 := setBuffer (sbuffer st ++ chunk) st in
  let urls := parseUrls (sbuffer st1) in
  let st2 := foldl admitStep st1 urls in
  match lastIndexOf RBR (sbuffer st2) with
  | Some lastClose => setBuffer (drop (S lastClose) (sbuffer st2)) st2
  | None => st2
  end.

(** The [end] handler. *)
Definition onEnd (st : stream) : stream :=
  let st' := Stream (sbuffer st) (seen st) (queue st) (processing st) true
                    (task st) (state st) (sworld st) (now st) (enqueued st)
                    (starts st) in
  if negb (processing st') && bool_decide (queue st' = [])
  then setState (Exited 0) st' else st'.

(** [processUrl(next, secret)] settles; then [await sleep(1000)] begins. *)
Definition onDone (url : jstr) (st : stream) : stream :=
  match processUrl url secret (sworld st) with
  | (Ret _, w) =>
      Stream (sbuffer st) (seen st) (queue st) (processing st) (ended st)
             (Sleeping (now st)) (state st)
             (World (calls w) (trace w ++ [Sleep 1000])) (now st)
             (enqueued st) (starts st)
  | (Throw e, w) =>
      drainFinallyThrow e
        (Stream (sbuffer st) (seen st) (queue st) (processing st) (ended st)
                (task st) (state st) w (now st) (enqueued st) (starts st))
  end.

(** What can happen next: a chunk arrives, the input ends, the pending task
    settles, the pending [sleep(1000)] is over. *)
Inductive input : Type :=
| Data (chunk : jstr)
| End_
| Done
| Wake.

(** One turn of the event loop at time [t]; [None] when this cannot be the
    next thing to happen: the process is gone, time runs backwards, input
    after its end, no task or no wait pending, or a wait that is not over. *)
Definition react (st : stream) (ev : N * input) : option stream :=
  let '(t, i) := ev in
  if negb (isLive (state st) && (now st <=? t)) then None
  else
    let st := setNow t st in
    match i, task st with
    | Data chunk, _ => if ended st then None else Some (onData chunk st)
    | End_, _ => if ended st then None else Some (onEnd st)
    | Done, Running url => Some (onDone url st)
    | Wake, Sleeping since =>
        if since + 1000 <=? t then Some (drainLoop st) else None
    | _, _ => None
    end.

Fixpoint runStream (st : stream) (evs : list (N * input)) : option stream :=
  match evs with
  | [] => Some st
  | ev :: rest => match react st ev with
                  | Some st' => runStream st' rest
                  | None => None
                  end
  end.

End Run.

(** ** The helpers of [utils] *)

(** [r*], greedy. *)
Definition star (r : regex) : regex := Opt (Plus r).

Definition isAlpha (c : cu) : bool :=
  (65 <=? c) && (c <=? 90) || (97 <=? c) && (c <=? 122).

Definition isDigit (c : cu) : bool := (48 <=? c) && (c <=? 57).

(** [[A-Z0-9._%+-]] under [i]. *)
Definition localChar (c : cu) : bool :=
  isAlpha c || isDigit c
  || (c =? 46) || (c =? 95) || (c =? 37) || (c =? 43) || (c =? 45).

(** [[A-Z0-9.-]] under [i]. *)
Definition domainChar (c : cu) : bool :=
  isAlpha c || isDigit c || (c =? 46) || (c =? 45).

(** [/[A-Z0-9._%+-]+@[A-Z0-9.-]+\.[A-Z]{2,}/i] *)
Definition emailRegex : regex :=
  Seq (Plus (Cls localChar))
    (Seq (Lit 64)
       (Seq (Plus (Cls domainChar))
          (Seq (Lit 46) (Seq (Cls isAlpha) (Plus (Cls isAlpha)))))).

(** [html.match(...)] with a pattern without [g] is [exec] from the start;
    [match ? match[0] : undefined]. *)
Definition extractFirstEmail (html : jstr) : option jstr :=
  match exec emailRegex html with
  | Some (m, _) => Some m
  | None => None
  end.

Definition notGt (c : cu) : bool := negb (c =? 62).
Definition notLt (c : cu) : bool := negb (c =? 60).

(** The pattern of [extractTitle], with flag [i]: [<title], characters
    other than [>], and [>]; group 1, characters other than [<]; and
    [</title>].  Here its opening and its closing tag. *)
Definition titleOpen : regex :=
  Seq (lits (js "<title")) (Seq (star (Cls notGt)) (Lit 62)).

Definition titleClose : regex := lits (js "</title>").

(** The matches of the title pattern at the head of [s], in the order of
    the matcher: for each, the text of group 1, which is what the group
    took between the text left by the opening tag ([s1]) and the text left
    for the closing tag ([s2]). *)
Definition titleHere (s : jstr) : list jstr :=
  flat_map
    (fun s1 =>
       flat_map
         (fun s2 =>
            map (fun _ => take (length s1 - length s2) s1)
                (ends titleClose s2))
         (ends (star (Cls notLt)) s1))
    (ends titleOpen s).

(** [match[1]] of [html.match(...)]: group 1 of the leftmost match. *)
Fixpoint titleMatch (s : jstr) : option jstr :=
  match head (titleHere s) with
  | Some g => Some g
  | None => match s with
            | [] => None
            | _ :: t => titleMatch t
            end
  end.

(** [String.prototype.trim]: white space and line ends are the characters
    of [\s]. *)
Definition trim (s : jstr) : jstr :=
  reverse (dropRun isSpace (reverse (dropRun isSpace s))).

(** [match?.[1]?.trim()] *)
Definition extractTitle (html : jstr) : option jstr :=
  trim <$> titleMatch html.

(** An address as [emailRegex] reads it: characters of the local part, [@],
    characters of the domain, a dot, and two letters or more. *)
Definition emailShaped (e : jstr) : Prop :=
  exists l d t,
    e = l ++ 64 :: d ++ 46 :: t
    /\ l <> [] /\ Forall (fun c => localChar c = true) l
    /\ d <> [] /\ Forall (fun c => domainChar c = true) d
    /\ (2 <= length t)%nat /\ Forall (fun c => isAlpha c = true) t.

(** ** Words for the properties below *)

(** What a closed group gives: the last of its tokens, when it has one. *)
Definition emitOf (g : jstr) : list jstr := option_list (last (urlTokens g)).

Definition withResults (f : list jstr -> list jstr) (s : scan) : scan :=
  Scan (f (results s)) (depth s) (buffer s) (lastChar s).

(** The character before what follows [text], [prev] being the one before
    [text]. *)
Definition lastOf (prev : option cu) (text : jstr) : option cu :=
  match last text with
  | Some c => Some c
  | None => prev
  end.

(** [a [www.x.com [http://y.org] z] b [no url] [www.w.com]] *)
Definition sampleText : btext :=
  BChar 97 (BChar 32
    (BGroup (foldr BChar (BChar 32 (BGroup (foldr BChar BEnd (js "http://y.org"))
                                      (BChar 32 (BChar 122 BEnd))))
                   (js "www.x.com"))
       (BChar 32 (BChar 98 (BChar 32
          (BGroup (foldr BChar BEnd (js "no url"))
             (BChar 32 (BGroup (foldr BChar BEnd (js "www.w.com")) BEnd)))))))).

(** The response of a fetch that counts as a success. *)
Definition succeeded (f : fetched) : option response :=
  match f with
  | Resolved res => if ok res then Some res else None
  | Rejected => None
  end.

(** What the [catch] block gets when it does not. *)
Definition failure (f : fetched) : error :=
  match f with
  | Resolved res => StatusError (status res)
  | Rejected => FetchError
  end.

(** The text begins with [http://] or [https://], in letters of either
    case. *)
Definition hasProtocol (s : jstr) : bool :=
  ciPrefix (js "http://") s || ciPrefix (js "https://") s.

(** Two dequeues in a row are at least a second apart. *)
Fixpoint spaced (l : list (jstr * N)) : Prop :=
  match l with
  | (_, t1) :: r =>
      match r with
      | (_, t2) :: _ => t1 + 1000 <= t2
      | [] => True
      end /\ spaced r
  | [] => True
  end.

(** How the place where [drain] is suspended goes with the flag, the queue
    and the clock. *)
Definition synced (st : stream) : Prop :=
  match task st with
  | Idle =>
      processing st = false /\ queue st = []
      /\ forall u t, last (starts st) = Some (u, t) -> t + 1000 <= now st
  | Running url =>
      processing st = true
      /\ exists t, last (starts st) = Some (url, t) /\ t <= now st
  | Sleeping since =>
      processing st = true /\ since <= now st
      /\ forall u t, last (starts st) = Some (u, t) -> t <= since
  end.

Record Inv (st : stream) : Prop := {
  inv_fifo : (starts st).*1 ++ queue st = enqueued st;
  inv_nodup : NoDup (enqueued st);
  inv_seen : seen st = list_to_set (enqueued st);
  inv_spaced : spaced (starts st);
  inv_synced : state st = Live -> synced st
}.

(** ** Sample worlds *)

Definition pageOk : fetched :=
  Resolved (Response true 200 (Some (js "<title>t</title>"))).

(** Every fetch succeeds. *)
Definition netOk : nat -> jstr -> fetched := fun _ _ => pageOk.

(** Every fetch gets a response with status 200 whose body cannot be read. *)
Definition netBodyFails : nat -> jstr -> fetched :=
  fun _ _ => Resolved (Response true 200 None).

(** The first fetch fails, every later one succeeds. *)
Definition netRetry : nat -> jstr -> fetched :=
  fun n _ => match n with O => Rejected | S _ => pageOk end.

(** The first fetch fails; every later one gets a response with status 200
    whose body cannot be read. *)
Definition netRetryBodyFails : nat -> jstr -> fetched :=
  fun n _ => match n with
             | O => Rejected
             | S _ => Resolved (Response true 200 None)
             end.

Definition titleT : jstr -> option jstr := fun _ => Some (js "t").
Definition noText : jstr -> option jstr := fun _ => None.
Definition sameEmail : jstr -> jstr -> jstr := fun e _ => e.

Definition sampleSchedule : list (N * input) :=
  [(0, Data (js "[www.a.com] [www.b.com"));
   (1, Data (js "x] [www.a.com]"));
   (2, End_); (3, Done); (1003, Wake); (1500, Done); (2500, Wake)].

(** The part of the buffer that the [data] handler keeps. *)
Definition afterLastClose (b : jstr) : jstr :=
  match lastIndexOf RBR b with
  | Some lastClose => drop (S lastClose) b
  | None => b
  end.

(** The URLs of the records written, and the addresses fetched, in a trace. *)
Definition stdoutUrls (evs : list event) : list jstr :=
  flat_map (fun e => match e with Stdout o => [o_url o] | _ => [] end) evs.

Definition gets (evs : list event) : list jstr :=
  flat_map (fun e => match e with Get u => [u] | _ => [] end) evs.

(** The text received so far: the chunks of a schedule, one after another. *)
Definition received (evs : list (N * input)) : jstr :=
  flat_map (fun ev => match ev.2 with Data chunk => chunk | _ => [] end) evs.

(** Every [']'] of [text] leaves the scan outside all groups: it closes an
    outermost group or stands outside every group.  [st] is the scan before
    [text]. *)
Fixpoint closesAtTop (st : scan) (text : jstr) : bool :=
  match text with
  | [] => true
  | ch :: t =>
      let st' := scanStep st ch in
      (if ch =? RBR then (depth st' =? 0)%nat else true) && closesAtTop st' t
  end.

(** How a process that is over, or one that waits, stands. *)
Definition settled (st : stream) : Prop :=
  match state st with
  | Exited c =>
      c = 0 /\ ended st = true /\ queue st = [] /\ processing st = false
  | Crashed e => e = BodyError /\ processing st = false
  | Live => ended st = true -> task st <> Idle
  end.

(** How often [c] occurs in [text]. *)
Definition occurrences (c : cu) (text : jstr) : nat :=
  length (filter (fun ch => ch = c) text).

(** * Properties *)

(** The repository's parser tests. *)
Example test_not_in_brackets :
  parseUrls (js "bla bla asdfasdf www.google.com") = [].
Proof. vm_compute. reflexivity. Qed.

Example test_simple_brackets :
  parseUrls (js "here, [ www.google.com ] fg") = [js "www.google.com"].
Proof. vm_compute. reflexivity. Qed.

Example test_last_url :
  parseUrls (js "[bla www.first.com asdfasdf www.second.com truc]")
  = [js "www.second.com"].
Proof. vm_compute. reflexivity. Qed.

Example test_nested :
  parseUrls (js "multiple levels[ [www.first.com] www.second.com]")
  = [js "www.second.com"].
Proof. vm_compute. reflexivity. Qed.

Example test_unclosed : parseUrls (js "unclosed [ www.google.com ") = [].
Proof. vm_compute. reflexivity. Qed.

Example test_escaped : parseUrls (js "asdf \[www.google.com]") = [].
Proof. vm_compute. reflexivity. Qed.

(** ** The matcher *)

Lemma ends_lits w s :
  ends (lits w) s = if ciPrefix w s then [drop (length w) s] else [].
Proof.
  revert s. induction w as [|c w IH]; intros s; [done|].
  destruct s as [|ch t]; [done|]. cbn [lits foldr ends ciPrefix].
  destruct (canon ch =? canon c); cbn [flat_map andb]; [|done].
  fold (lits w). rewrite IH, app_nil_r. done.
Qed.

Lemma ends_seq_lits w r s :
  ends (Seq (lits w) r) s = if ciPrefix w s then ends r (drop (length w) s) else [].
Proof.
  cbn [ends]. rewrite ends_lits. destruct (ciPrefix w s); [|done].
  cbn [flat_map]. apply app_nil_r.
Qed.

Lemma ciPrefix_app w1 w2 s :
  ciPrefix (w1 ++ w2) s = ciPrefix w1 s && ciPrefix w2 (drop (length w1) s).
Proof.
  revert s. induction w1 as [|c w1 IH]; intros s; [done|].
  destruct s as [|ch t]; [done|]. cbn [app ciPrefix length drop].
  rewrite IH. by rewrite andb_assoc.
Qed.

Lemma ciPrefix_length w s : ciPrefix w s = true -> (length w <= length s)%nat.
Proof.
  revert s. induction w as [|c w IH]; intros s; cbn; [lia|].
  destruct s as [|ch t]; [done|].
  intros [_ H]%andb_prop. apply IH in H. cbn. lia.
Qed.

Lemma dropRun_takeRun p s : dropRun p s = drop (length (takeRun p s)) s.
Proof. induction s as [|c t IH]; [done|]. cbn. by destruct (p c). Qed.

Lemma takeRun_dropRun p s : takeRun p s ++ dropRun p s = s.
Proof. induction s as [|c t IH]; [done|]. cbn. destruct (p c); cbn; congruence. Qed.

Lemma takeRun_all p s : Forall (fun c => p c = true) (takeRun p s).
Proof.
  induction s as [|c t IH]; cbn; [constructor|].
  destruct (p c) eqn:E; by constructor.
Qed.

Lemma dropRun_stop p s : head (dropRun p s) ≫= (fun c => Some (p c)) ≠ Some true.
Proof.
  induction s as [|c t IH]; cbn; [done|].
  destruct (p c) eqn:E; [done|]. cbn. congruence.
Qed.

Lemma head_iterate_cls p fuel s :
  (length s < fuel)%nat ->
  head (iterate (ends (Cls p)) fuel s)
  = match s with
    | c :: t => if p c then Some (dropRun p t) else None
    | [] => None
    end.
Proof.
  set (e := ends (Cls p)). revert s.
  induction fuel as [|f IH]; intros s Hf; [lia|].
  destruct s as [|c t]; [done|]. cbn [iterate].
  change (e (c :: t)) with (if p c then [t] else []).
  destruct (p c); [|done]. cbn [flat_map]. rewrite app_nil_r.
  cbn in Hf. specialize (IH t ltac:(lia)).
  destruct (iterate e f t) as [|x l] eqn:E; cbn [app head] in *.
  - destruct t as [|c' t']; [done|]. cbn. by destruct (p c').
  - destruct t as [|c' t']; [done|]. cbn. destruct (p c'); congruence.
Qed.

Ltac canon_cases :=
  repeat match goal with
    | |- context [canon ?c =? canon ?k] =>
        let E := fresh "E" in
        destruct (canon c =? canon k) eqn:E;
        [apply N.eqb_eq in E|]; cbn [andb flat_map app]
    end;
  try done;
  try (exfalso;
       match goal with
       | E1 : canon ?c = canon ?a, E2 : canon ?c = canon ?b |- _ =>
           rewrite E1 in E2; vm_compute in E2; discriminate
       | E1 : canon ?c = canon ?a, E2 : (canon ?c =? canon ?a) = false |- _ =>
           rewrite E1, N.eqb_refl in E2; discriminate
       end).

Lemma ends_scheme s :
  ends (Alt httpRegex (lits (js "www."))) s
  = match schemeLen s with
    | Some n => [drop n s]
    | None => []
    end.
Proof.
  unfold schemeLen.
  do 8 (try destruct s as [|? s]);
    cbn [ends httpRegex lits js foldr N_of_ascii ciPrefix flat_map app
         length drop andb];
    change (N_of_ascii ?a) with (ltac:(let v := eval vm_compute in (N_of_ascii a) in exact v)) in *.
  all: canon_cases.
Qed.

Lemma schemeLen_le s n : schemeLen s = Some n -> (n <= length s)%nat.
Proof.
  unfold schemeLen. intros H.
  repeat match type of H with
    | (if ciPrefix ?w s then _ else _) = _ =>
        let E := fresh "E" in
        destruct (ciPrefix w s) eqn:E;
        [apply ciPrefix_length in E; cbn in E; injection H as <-; lia|]
    end.
  done.
Qed.

Lemma tokenLen_le s n : tokenLen s = Some n -> (0 < n <= length s)%nat.
Proof.
  unfold tokenLen. destruct (schemeLen s) as [k|] eqn:Hk; [|done].
  apply schemeLen_le in Hk.
  pose proof (takeRun_dropRun urlChar (drop k s)) as Hsplit.
  destruct (takeRun urlChar (drop k s)) as [|c run] eqn:Hrun; [done|].
  intros [= <-]. apply (f_equal length) in Hsplit.
  rewrite length_app, length_drop in Hsplit. cbn [length] in *. lia.
Qed.

(** The match of [urlRegex] at the head of a text is the token there. *)
Lemma matchHere_url s :
  matchHere urlRegex s = (fun n => drop n s) <$> tokenLen s.
Proof.
  unfold matchHere, urlRegex, tokenLen.
  change (ends (Seq ?a ?b) s) with (flat_map (ends b) (ends a s)).
  rewrite ends_scheme. destruct (schemeLen s) as [k|]; [|done].
  cbn [flat_map]. rewrite app_nil_r.
  change (ends (Plus ?r) ?x) with (iterate (ends r) (S (length x)) x).
  rewrite head_iterate_cls by lia.
  destruct (drop k s) as [|c t] eqn:Hd; [done|]. cbn [takeRun].
  destruct (urlChar c); [|done]. cbn [fmap option_fmap option_map length].
  f_equal. rewrite dropRun_takeRun.
  rewrite <- drop_drop, Hd. done.
Qed.

Lemma exec_firstToken s : exec urlRegex s = firstToken s.
Proof.
  induction s as [|c t IH]; cbn [exec firstToken]; rewrite matchHere_url.
  - destruct (tokenLen []) as [n|] eqn:Hn; [|done].
    apply tokenLen_le in Hn. cbn in Hn. lia.
  - destruct (tokenLen (c :: t)) as [n|] eqn:Hn; [|exact IH].
    apply tokenLen_le in Hn. cbn [fmap option_fmap option_map].
    replace (length (c :: t) - length (drop n (c :: t)))%nat with n
      by (rewrite length_drop; lia).
    done.
Qed.

Lemma firstToken_shorter s m rest :
  firstToken s = Some (m, rest) -> (length rest < length s)%nat /\ m <> [].
Proof.
  induction s as [|c t IH]; cbn [firstToken].
  - destruct (tokenLen []) as [n|] eqn:Hn; [|done].
    apply tokenLen_le in Hn. cbn in Hn. lia.
  - destruct (tokenLen (c :: t)) as [n|] eqn:Hn.
    + apply tokenLen_le in Hn. intros [= <- <-]. rewrite length_drop.
      split; [lia|]. destruct n; [lia|]. done.
    + intros H. apply IH in H. cbn. split; [lia|tauto].
Qed.

Lemma tokensLoop_fuel g1 g2 s :
  (length s < g1)%nat -> (length s < g2)%nat ->
  tokensLoop g1 s = tokensLoop g2 s.
Proof.
  revert g2 s. induction g1 as [|g1 IH]; intros g2 s H1 H2; [lia|].
  destruct g2 as [|g2]; [lia|]. cbn.
  destruct (firstToken s) as [[m rest]|] eqn:Hft; [|done].
  destruct (firstToken_shorter _ _ _ Hft) as [Hlen _].
  f_equal. apply IH; lia.
Qed.

Lemma urlTokens_step s :
  urlTokens s = match firstToken s with
                | Some (m, rest) => m :: urlTokens rest
                | None => []
                end.
Proof.
  unfold urlTokens at 1. cbn [tokensLoop].
  destruct (firstToken s) as [[m rest]|] eqn:Hft; [|done].
  destruct (firstToken_shorter _ _ _ Hft) as [Hlen _].
  f_equal. unfold urlTokens. apply tokensLoop_fuel; lia.
Qed.

(** The loop of [parseUrls] keeps the last token; any number of rounds
    above the length of the text gives the same. *)
Lemma lastMatchLoop_tokens fuel s last0 :
  (length s < fuel)%nat ->
  lastMatchLoop fuel s last0
  = match last (urlTokens s) with
    | Some u => Some u
    | None => last0
    end.
Proof.
  revert s last0. induction fuel as [|f IH]; intros s last0 Hf; [lia|].
  cbn [lastMatchLoop]. rewrite exec_firstToken, urlTokens_step.
  destruct (firstToken s) as [[m rest]|] eqn:Hft; [|done].
  destruct (firstToken_shorter _ _ _ Hft) as [Hlen _].
  rewrite IH by lia. rewrite last_cons.
  by destruct (last (urlTokens rest)).
Qed.

Lemma lastUrl_tokens b : lastUrl b = last (urlTokens b).
Proof.
  unfold lastUrl. rewrite lastMatchLoop_tokens by lia.
  by destruct (last (urlTokens b)).
Qed.

Lemma urlTokens_nonempty s u : u ∈ urlTokens s -> u <> [].
Proof.
  remember (length s) as n eqn:Hn. revert s Hn.
  induction n as [n IH] using lt_wf_ind. intros s -> Hu.
  rewrite urlTokens_step in Hu.
  destruct (firstToken s) as [[m rest]|] eqn:Hft; [|by apply elem_of_nil in Hu].
  destruct (firstToken_shorter _ _ _ Hft) as [Hlen Hm].
  apply elem_of_cons in Hu as [->|Hu]; [done|].
  by apply (IH (length rest) Hlen rest).
Qed.

Lemma firstToken_spec s m rest :
  firstToken s = Some (m, rest) ->
  exists pre, s = pre ++ m ++ rest
    /\ tokenLen (m ++ rest) = Some (length m)
    /\ forall k, (k < length pre)%nat -> tokenLen (drop k s) = None.
Proof.
  induction s as [|c t IH]; cbn [firstToken].
  - destruct (tokenLen []) as [n|] eqn:Hn; [|done].
    apply tokenLen_le in Hn. cbn in Hn. lia.
  - destruct (tokenLen (c :: t)) as [n|] eqn:Hn.
    + intros [= <- <-]. exists []. pose proof (tokenLen_le _ _ Hn) as Hle.
      rewrite take_drop, length_take. cbn [app length].
      split; [done|]. split; [|lia].
      rewrite Hn. f_equal. cbn [length] in Hle. lia.
    + intros H. destruct (IH H) as (pre & -> & Htok & Hpre).
      exists (c :: pre). split; [done|]. split; [done|].
      intros [|k] Hk; [exact Hn|]. cbn in Hk. apply Hpre. lia.
Qed.

Lemma firstToken_none s k : firstToken s = None -> tokenLen (drop k s) = None.
Proof.
  revert k. induction s as [|c t IH]; intros k; cbn [firstToken].
  - by destruct k.
  - destruct (tokenLen (c :: t)) as [n|] eqn:Hn; [done|].
    intros H. destruct k as [|k]; [exact Hn|]. by apply IH.
Qed.

Lemma ciPrefix_take_inv w n s : ciPrefix w (take n s) = true -> ciPrefix w s = true.
Proof.
  revert n s. induction w as [|c w IH]; intros n s; [done|].
  destruct s as [|ch t]; [by destruct n|]. destruct n as [|n]; [done|].
  cbn. intros [-> H]%andb_prop. by rewrite (IH _ _ H).
Qed.

Lemma ciPrefix_take w n s :
  (length w <= n)%nat -> ciPrefix w s = true -> ciPrefix w (take n s) = true.
Proof.
  revert n s. induction w as [|c w IH]; intros n s Hn; [done|].
  destruct s as [|ch t]; [done|]. destruct n as [|n]; [cbn in Hn; lia|].
  cbn. intros [-> H]%andb_prop. cbn in Hn. rewrite IH; [done|lia|done].
Qed.

Lemma ciPrefix_take_false w n s :
  ciPrefix w s = false -> ciPrefix w (take n s) = false.
Proof.
  intros H. destruct (ciPrefix w (take n s)) eqn:E; [|done].
  apply ciPrefix_take_inv in E. congruence.
Qed.

Lemma schemeLen_take s k n :
  schemeLen s = Some k -> (k <= n)%nat -> schemeLen (take n s) = Some k.
Proof.
  unfold schemeLen. intros H Hn.
  destruct (ciPrefix (js "https://") s) eqn:E1.
  { injection H as <-. by rewrite ciPrefix_take. }
  rewrite (ciPrefix_take_false _ _ _ E1).
  destruct (ciPrefix (js "http://") s) eqn:E2.
  { injection H as <-. by rewrite ciPrefix_take. }
  rewrite (ciPrefix_take_false _ _ _ E2).
  destruct (ciPrefix (js "www.") s) eqn:E3; [|done].
  injection H as <-. by rewrite ciPrefix_take.
Qed.

Lemma canon_urlChar c ch :
  c ∈ js "https://www." -> canon ch = canon c -> urlChar ch = true.
Proof.
  intros Hc. cbn in Hc.
  repeat (apply elem_of_cons in Hc as [->|Hc]);
    [..|by apply elem_of_nil in Hc];
    vm_compute (canon _) at 2; unfold canon;
    destruct ((97 <=? ch) && (ch <=? 122)) eqn:E; intros H;
    try (apply andb_prop in E as [E1%N.leb_le E2%N.leb_le]);
    try (assert (ch = (ch - 32) + 32) as Hch by lia; rewrite H in Hch;
         cbn in Hch; subst ch; done);
    try (subst ch; done).
Qed.

Lemma ciPrefix_urlChars w s :
  w ⊆ js "https://www." -> ciPrefix w s = true ->
  Forall (fun c => urlChar c = true) (take (length w) s).
Proof.
  revert s. induction w as [|c w IH]; intros s Hw; [constructor|].
  destruct s as [|ch t]; [done|]. cbn. intros [E%N.eqb_eq H]%andb_prop.
  constructor.
  - apply (canon_urlChar c); [apply Hw; by left|done].
  - apply IH; [|done]. intros x Hx. apply Hw. by right.
Qed.

Lemma schemeLen_urlChars s k :
  schemeLen s = Some k -> Forall (fun c => urlChar c = true) (take k s).
Proof.
  assert (Hsub : forall w, w = js "https://" \/ w = js "http://" \/ w = js "www."
                   -> w ⊆ js "https://www.").
  { intros w Hw x Hx. destruct Hw as [->|[->| ->]]; cbn in Hx |- *;
      repeat (apply elem_of_cons in Hx as [->|Hx]);
      try (by apply elem_of_nil in Hx); repeat constructor. }
  unfold schemeLen. intros H.
  destruct (ciPrefix (js "https://") s) eqn:E1.
  { injection H as <-. apply (ciPrefix_urlChars (js "https://")); auto. }
  destruct (ciPrefix (js "http://") s) eqn:E2.
  { injection H as <-. apply (ciPrefix_urlChars (js "http://")); auto. }
  destruct (ciPrefix (js "www.") s) eqn:E3; [|done].
  injection H as <-. apply (ciPrefix_urlChars (js "www.")); auto.
Qed.

(** What a token is: a scheme or [www.], then at least one more character,
    all of them neither white space nor brackets, up to the first character
    that is one or to the end. *)
Lemma tokenLen_shape s n :
  tokenLen s = Some n ->
  exists k, schemeLen (take n s) = Some k /\ (k < n <= length s)%nat
    /\ Forall (fun c => urlChar c = true) (take n s)
    /\ forall c, head (drop n s) = Some c -> urlChar c = false.
Proof.
  intros Hn. pose proof (tokenLen_le _ _ Hn) as Hle. revert Hn.
  unfold tokenLen. destruct (schemeLen s) as [k|] eqn:Hk; [|done].
  destruct (takeRun urlChar (drop k s)) as [|c0 run] eqn:Hrun; [done|].
  intros [= <-]. exists k. cbn [length] in *.
  split; [apply schemeLen_take; [done|lia]|]. split; [lia|]. split.
  - rewrite <- take_take_drop.
    apply Forall_app. split; [by apply schemeLen_urlChars|].
    pose proof (takeRun_all urlChar (drop k s)) as Hall. rewrite Hrun in Hall.
    pose proof (takeRun_dropRun urlChar (drop k s)) as Hsplit.
    rewrite Hrun in Hsplit. rewrite <- Hsplit.
    by rewrite (take_app_length' (c0 :: run)).
  - intros c Hc. rewrite <- drop_drop in Hc.
    replace (S (length run)) with (length (takeRun urlChar (drop k s))) in Hc
      by (by rewrite Hrun).
    rewrite <- dropRun_takeRun in Hc.
    pose proof (dropRun_stop urlChar (drop k s)) as Hstop.
    rewrite Hc in Hstop. cbn in Hstop. destruct (urlChar c); congruence.
Qed.

(** ** The scanner *)

Lemma pushLast_emitOf res b : pushLast res (lastUrl b) = res ++ emitOf b.
Proof.
  unfold emitOf. rewrite lastUrl_tokens.
  destruct (last (urlTokens b)) as [u|] eqn:E; cbn; [|by rewrite app_nil_r].
  destruct u as [|c u]; [|done].
  exfalso. apply (urlTokens_nonempty b []); [|done].
  apply last_Some in E as [l' ->]. apply elem_of_app. right. by left.
Qed.

(** Depth, buffer and last character after a step do not depend on the
    results so far; the results grow at a closing bracket of depth 1 only. *)
Lemma scanStep_results r d b l ch :
  scanStep (Scan r d b l) ch
  = Scan (if closesGroup (Scan r d b l) ch then pushLast r (lastUrl b) else r)
         (depth (scanStep (Scan [] d b l) ch))
         (buffer (scanStep (Scan [] d b l) ch))
         (lastChar (scanStep (Scan [] d b l) ch)).
Proof.
  unfold scanStep, closesGroup. cbn [results depth buffer lastChar].
  destruct (N.eqb_spec ch LBR) as [EL|EL];
    destruct (N.eqb_spec ch RBR) as [ER|ER];
    [subst; discriminate|..];
    destruct (isEscapedBracket ch l) eqn:EE; cbn [andb negb];
    try reflexivity;
    destruct d as [|[|d]]; cbn -[lastUrl]; rewrite ?Nat.sub_0_r; reflexivity.
Qed.

Lemma groupStep_results g d b l ch :
  groupStep (Scan g d b l) ch
  = Scan (if closesGroup (Scan g d b l) ch then g ++ [b] else g)
         (depth (scanStep (Scan [] d b l) ch))
         (buffer (scanStep (Scan [] d b l) ch))
         (lastChar (scanStep (Scan [] d b l) ch)).
Proof. unfold groupStep. by rewrite scanStep_results. Qed.

Lemma scan_groups text r g d b l :
  r = flat_map emitOf g ->
  scanFrom (Scan r d b l) text
  = withResults (flat_map emitOf) (foldl groupStep (Scan g d b l) text).
Proof.
  revert r g d b l. induction text as [|ch t IH]; intros r g d b l ->; [done|].
  cbn [scanFrom foldl]. rewrite scanStep_results, groupStep_results.
  apply IH. unfold closesGroup. cbn [lastChar depth].
  destruct ((ch =? RBR) && negb (isEscapedBracket ch l) && (d =? 1)%nat);
    [|done].
  rewrite pushLast_emitOf, flat_map_app. cbn. by rewrite app_nil_r.
Qed.

Lemma parseUrls_groups text :
  parseUrls text = flat_map emitOf (closedGroups text).
Proof.
  unfold parseUrls, closedGroups, scan0. by rewrite (scan_groups text [] []).
Qed.

Lemma lastOf_cons prev c t : lastOf prev (c :: t) = lastOf (Some c) t.
Proof. unfold lastOf. rewrite last_cons. by destruct (last t). Qed.

Lemma lastOf_app prev a b : lastOf prev (a ++ b) = lastOf (lastOf prev a) b.
Proof.
  revert prev. induction a as [|c a IH]; intros prev; [done|].
  cbn [app]. by rewrite !lastOf_cons, IH.
Qed.

Lemma unescaped_app prev a b :
  unescaped prev (a ++ b) = unescaped prev a && unescaped (lastOf prev a) b.
Proof.
  revert prev. induction a as [|c a IH]; intros prev; [done|].
  cbn [app unescaped]. by rewrite IH, lastOf_cons, andb_assoc.
Qed.

Lemma isEscapedBracket_plain c prev :
  isBracket c = false -> isEscapedBracket c prev = false.
Proof. unfold isEscapedBracket. by intros ->. Qed.

Lemma isBracket_false c :
  isBracket c = false -> (c =? LBR) = false /\ (c =? RBR) = false.
Proof. unfold isBracket. by intros [? ?]%orb_false_elim. Qed.

Lemma groupStep_plain g d buf prev c :
  isBracket c = false ->
  groupStep (Scan g d buf prev) c
  = Scan g d (if (1 <=? d)%nat then buf ++ [c] else buf) (Some c).
Proof.
  intros Hc. unfold groupStep, closesGroup, scanStep.
  cbn [lastChar depth buffer results].
  rewrite (isEscapedBracket_plain _ _ Hc).
  destruct (isBracket_false _ Hc) as [-> ->]. cbn [andb negb].
  by destruct (1 <=? d)%nat.
Qed.

Lemma groupStep_open g d buf prev :
  isEscapedBracket LBR prev = false ->
  groupStep (Scan g d buf prev) LBR
  = Scan g (S d) (if (d =? 0)%nat then [] else buf) (Some LBR).
Proof.
  intros He. unfold groupStep, closesGroup, scanStep.
  cbn [lastChar depth buffer results]. rewrite He.
  change (LBR =? RBR) with false. change (LBR =? LBR) with true.
  cbn [andb negb]. by destruct d.
Qed.

Lemma groupStep_close g d buf prev :
  isEscapedBracket RBR prev = false ->
  groupStep (Scan g (S d) buf prev) RBR
  = Scan (if (d =? 0)%nat then g ++ [buf] else g) d buf (Some RBR).
Proof.
  intros He. unfold groupStep, closesGroup, scanStep.
  cbn [lastChar depth buffer results]. rewrite He.
  change (RBR =? RBR) with true. change (RBR =? LBR) with false.
  cbn [andb negb]. change (0 <? S d)%nat with true. cbv iota.
  replace (S d - 1)%nat with d by lia.
  change (S d =? 1)%nat with (d =? 0)%nat. by destruct (d =? 0)%nat.
Qed.

(** Inside a group, a balanced text adds its characters to the buffer,
    without their brackets, and leaves the depth where it was. *)
Lemma groups_inner b : forall g d buf prev rest,
  plainChars b = true -> unescaped prev (render b) = true ->
  foldl groupStep (Scan g (S d) buf prev) (render b ++ rest)
  = foldl groupStep
      (Scan g (S d) (buf ++ flat b) (lastOf prev (render b))) rest.
Proof.
  induction b as [|c b IH|i IHi r IHr]; intros g d buf prev rest Hp Hu.
  - cbn. by rewrite app_nil_r.
  - cbn [plainChars render unescaped] in Hp, Hu.
    apply andb_prop in Hp as [Hc%negb_true_iff Hp].
    apply andb_prop in Hu as [_ Hu].
    cbn [render flat app foldl]. rewrite groupStep_plain by done.
    change (1 <=? S d)%nat with true. cbv iota.
    rewrite IH by done. rewrite lastOf_cons.
    by rewrite <- app_assoc.
  - cbn [plainChars render unescaped] in Hp, Hu.
    apply andb_prop in Hp as [Hi Hr].
    apply andb_prop in Hu as [Ho%negb_true_iff Hu].
    rewrite unescaped_app in Hu. apply andb_prop in Hu as [Hui Hu].
    cbn [unescaped] in Hu. apply andb_prop in Hu as [Hc%negb_true_iff Hur].
    cbn [render flat app foldl]. rewrite groupStep_open by done.
    change (S d =? 0)%nat with false. cbv iota.
    rewrite <- app_assoc. rewrite IHi by done.
    cbn [app foldl]. rewrite groupStep_close by done.
    change (S d =? 0)%nat with false. cbv iota.
    rewrite IHr by done.
    rewrite lastOf_cons, lastOf_app, lastOf_cons. by rewrite app_assoc.
Qed.

(** Outside every group, the groups of a balanced text are closed one by
    one, each with its flattened text in the buffer. *)
Lemma groups_top b : forall g buf prev,
  plainChars b = true -> unescaped prev (render b) = true ->
  exists buf',
    foldl groupStep (Scan g 0 buf prev) (render b)
    = Scan (g ++ topGroups b) 0 buf' (lastOf prev (render b)).
Proof.
  induction b as [|c b IH|i _ r IHr]; intros g buf prev Hp Hu.
  - exists buf. cbn. by rewrite app_nil_r.
  - cbn [plainChars render unescaped] in Hp, Hu.
    apply andb_prop in Hp as [Hc%negb_true_iff Hp].
    apply andb_prop in Hu as [_ Hu].
    cbn [render topGroups foldl]. rewrite groupStep_plain by done.
    change (1 <=? 0)%nat with false. cbv iota.
    destruct (IH g buf (Some c) Hp Hu) as [buf' ->].
    exists buf'. by rewrite lastOf_cons.
  - cbn [plainChars render unescaped] in Hp, Hu.
    apply andb_prop in Hp as [Hi Hr].
    apply andb_prop in Hu as [Ho%negb_true_iff Hu].
    rewrite unescaped_app in Hu. apply andb_prop in Hu as [Hui Hu].
    cbn [unescaped] in Hu. apply andb_prop in Hu as [Hc%negb_true_iff Hur].
    cbn [render topGroups foldl]. rewrite groupStep_open by done.
    change (0 =? 0)%nat with true. cbv iota.
    rewrite groups_inner by done.
    cbn [app foldl]. rewrite groupStep_close by done.
    change (0 =? 0)%nat with true. cbv iota.
    destruct (IHr (g ++ [flat i]) (flat i) (Some RBR) Hr Hur) as [buf' ->].
    exists buf'. rewrite <- app_assoc. cbn [app].
    by rewrite lastOf_cons, lastOf_app, lastOf_cons.
Qed.

Lemma closedGroups_balanced b :
  plainChars b = true -> unescaped None (render b) = true ->
  closedGroups (render b) = topGroups b.
Proof.
  intros Hp Hu. unfold closedGroups, scan0.
  by destruct (groups_top b [] [] None Hp Hu) as [buf' ->].
Qed.

Lemma length_flat_map_emitOf gs :
  length (flat_map emitOf gs)
  = length (filter (fun g => urlTokens g <> []) gs).
Proof.
  induction gs as [|g gs IH]; [done|].
  cbn [flat_map]. rewrite length_app, filter_cons, IH. unfold emitOf.
  destruct (decide (urlTokens g <> [])) as [Hne|He].
  - destruct (last (urlTokens g)) as [u|] eqn:E; [done|].
    apply last_None in E. done.
  - assert (urlTokens g = []) as -> by (by destruct (urlTokens g); [|exfalso; apply He]).
    done.
Qed.

(** A text whose brackets are balanced, [d] of them being open before it,
    is a balanced text followed by [d] closing brackets, each with a
    balanced text after it. *)
Lemma balancedFrom_render text : forall d,
  balancedFrom d text = true ->
  exists b rest,
    length rest = d /\ plainChars b = true
    /\ Forall (fun r => plainChars r = true) rest
    /\ text = render b ++ concat (map (fun r => RBR :: render r) rest).
Proof.
  induction text as [|c t IH]; intros d Hb; cbn [balancedFrom] in Hb.
  - apply Nat.eqb_eq in Hb as ->. by exists BEnd, [].
  - destruct (N.eqb_spec c LBR) as [->|HL].
    { destruct (IH _ Hb) as (b & rest & Hlen & Hp & Hr & ->).
      destruct rest as [|r rest]; [done|].
      apply Forall_cons in Hr as [Hr1 Hr]. injection Hlen as Hlen.
      exists (BGroup b r), rest. split; [done|]. split.
      - cbn. by rewrite Hp, Hr1.
      - split; [done|]. cbn. by rewrite <- !app_assoc. }
    destruct (N.eqb_spec c RBR) as [->|HR].
    { destruct d as [|d]; [done|].
      destruct (IH _ Hb) as (b & rest & Hlen & Hp & Hr & ->).
      exists BEnd, (b :: rest). split; [cbn; by rewrite Hlen|].
      split; [done|]. split; [by constructor|done]. }
    destruct (IH _ Hb) as (b & rest & Hlen & Hp & Hr & ->).
    exists (BChar c b), rest. split; [done|]. split; [|done].
    cbn. rewrite Hp, andb_true_r. unfold isBracket.
    apply negb_true_iff, orb_false_intro; by apply N.eqb_neq.
Qed.

Lemma balanced_render text :
  balanced text = true -> exists b, plainChars b = true /\ render b = text.
Proof.
  intros Hb. destruct (balancedFrom_render _ _ Hb) as (b & rest & Hlen & Hp & _ & ->).
  destruct rest; [|done]. exists b. cbn. by rewrite app_nil_r.
Qed.

(** C1. Every group that the scanner closes at depth 1 gives no URL when its
    flattened text has no URL token and otherwise exactly the last of its
    tokens, for every text; and a text with balanced brackets, none of them
    after a backslash, is a sequence of characters and groups whose closed
    groups are the outermost groups, so as many URLs come out as there are
    outermost groups with a token. *)
Theorem C1_last_token_of_each_group :
  (forall text,
     parseUrls text
     = flat_map (fun g => option_list (last (urlTokens g))) (closedGroups text))
  /\ (forall text,
        balanced text = true -> unescaped None text = true ->
        exists b,
          render b = text /\ plainChars b = true
          /\ closedGroups text = topGroups b
          /\ length (parseUrls text)
             = length (filter (fun g => urlTokens g <> []) (topGroups b))).
Proof.
  split; [exact parseUrls_groups|].
  intros text Hb Hu. destruct (balanced_render _ Hb) as (b & Hp & <-).
  exists b. split; [done|]. split; [done|].
  split; [by apply closedGroups_balanced|].
  rewrite parseUrls_groups, closedGroups_balanced by done.
  apply length_flat_map_emitOf.
Qed.

Lemma C1_witness :
  exists b,
    render b = render sampleText /\ plainChars b = true
    /\ closedGroups (render sampleText) = topGroups b
    /\ length (parseUrls (render sampleText))
       = length (filter (fun g => urlTokens g <> []) (topGroups b)).
Proof.
  apply (proj2 C1_last_token_of_each_group (render sampleText));
    vm_compute; reflexivity.
Defined.

Example sampleText_urls :
  render sampleText = js "a [www.x.com [http://y.org] z] b [no url] [www.w.com]"
  /\ parseUrls (render sampleText) = [js "http://y.org"; js "www.w.com"].
Proof. vm_compute. done. Qed.

(** C8, as stated, fails: the scheme of [xhttp://a.com] starts
    inside the run, and the token [http://a.com] is found all the same. *)
Lemma C8_counterexample :
  lastUrl (js "xhttp://a.com") <> None
  /\ parseUrls (js "[xhttp://a.com]") = [js "http://a.com"].
Proof. vm_compute. split; [discriminate|reflexivity]. Qed.

(** C8, amended. A match of the URL pattern in a buffer is found at the
    leftmost place where [http://], [https://] or [www.] (letters of either
    case) is followed by at least one character that is neither white space
    nor a bracket, wherever in a run of such characters that place is; it is
    the scheme and the longest run of such characters after it.  So
    [xhttp://a.com] gives the token [http://a.com]. *)
Theorem C8_url_token_match :
  (forall buf,
     match exec urlRegex buf with
     | Some (m, rest) =>
         exists pre k,
           buf = pre ++ m ++ rest
           /\ schemeLen m = Some k /\ (k < length m)%nat
           /\ Forall (fun c => urlChar c = true) m
           /\ (forall c, head rest = Some c -> urlChar c = false)
           /\ (forall i, (i < length pre)%nat -> tokenLen (drop i buf) = None)
     | None => forall i, tokenLen (drop i buf) = None
     end)
  /\ exec urlRegex (js "xhttp://a.com") = Some (js "http://a.com", []).
Proof.
  split; [|by vm_compute].
  intros buf. rewrite exec_firstToken.
  destruct (firstToken buf) as [[m rest]|] eqn:Hft.
  - destruct (firstToken_spec _ _ _ Hft) as (pre & -> & Htok & Hpre).
    destruct (tokenLen_shape _ _ Htok) as (k & Hk & Hlt & Hall & Hstop).
    rewrite take_app_length in Hk, Hall. rewrite drop_app_length in Hstop.
    exists pre, k. repeat split; try done; lia.
  - intros i. by apply firstToken_none.
Qed.

Lemma lastChar_scanStep st ch : lastChar (scanStep st ch) = Some ch.
Proof.
  unfold scanStep.
  repeat match goal with
    | |- context [if ?b then _ else _] => destruct b
    end; reflexivity.
Qed.

Lemma lastChar_scanFrom pre : forall st,
  lastChar (scanFrom st pre) = lastOf (lastChar st) pre.
Proof.
  induction pre as [|c pre IH]; intros st; [done|].
  cbn [scanFrom foldl]. fold (scanFrom (scanStep st c) pre).
  by rewrite IH, lastChar_scanStep, lastOf_cons.
Qed.

(** C2, as stated, fails: in a text of two backslashes and an
    opening bracket the backslash before the bracket is itself escaped, and
    yet the bracket leaves the depth as it is. *)
Lemma C2_counterexample :
  trailingBackslashes (js "\\") = 2%nat
  /\ depth (scanFrom scan0 (js "\\[")) = depth (scanFrom scan0 (js "\\"))
  /\ parseUrls (js "\\[www.a.com]") = [].
Proof. vm_compute. done. Qed.

(** C2, amended. At every position of every text, a bracket that comes right
    after a backslash, escaped or not, is literal: depth and results stay,
    and the bracket is added to the buffer when the depth is 1 or more.
    Any other bracket is structural.  An opening one adds 1 to the depth,
    leaves the results, and empties the buffer when it opens an outermost
    group.  A closing one takes 1 off a depth above 0, leaves the buffer, and
    adds the last URL of the buffer to the results when it closes an
    outermost group; at depth 0 it is ignored: depth, buffer and results
    stay. *)
Theorem C2_bracket_after_backslash (pre : jstr) (ch : cu) :
  isBracket ch = true ->
  let st := scanFrom scan0 pre in
  let st' := scanStep st ch in
  if bool_decide (last pre = Some BSL)
  then depth st' = depth st /\ results st' = results st
       /\ buffer st' = if (1 <=? depth st)%nat then buffer st ++ [ch]
                       else buffer st
  else (ch = LBR ->
          depth st' = S (depth st) /\ results st' = results st
          /\ buffer st' = if (depth st =? 0)%nat then [] else buffer st)
       /\ (ch = RBR ->
             depth st' = (depth st - 1)%nat /\ buffer st' = buffer st
             /\ results st' = if (depth st =? 1)%nat
                              then pushLast (results st) (lastUrl (buffer st))
                              else results st).
Proof.
  intros Hb st st'. subst st'.
  assert (Hl : lastChar st = last pre).
  { subst st. rewrite lastChar_scanFrom. cbn. unfold lastOf.
    by destruct (last pre). }
  unfold scanStep, isEscapedBracket. rewrite Hb, Hl. cbn [andb].
  destruct (bool_decide (last pre = Some BSL)); cbn [negb andb].
  - rewrite !andb_false_r. by destruct (1 <=? depth st)%nat.
  - rewrite !andb_true_r. split.
    + intros ->. change (LBR =? LBR) with true. cbv iota.
      by destruct (depth st) as [|d].
    + intros ->. change (RBR =? LBR) with false. change (RBR =? RBR) with true.
      cbv iota. destruct (depth st) as [|[|d]]; done.
Qed.

Lemma C2_witness :
  let st := scanFrom scan0 (js "[a\\") in
  let st' := scanStep st RBR in
  depth st' = depth st /\ results st' = results st
  /\ buffer st' = buffer st ++ [RBR].
Proof. exact (C2_bracket_after_backslash (js "[a\\") RBR eq_refl). Defined.

(** ** Fetching *)

Section RunProperties.

Variable net : nat -> jstr -> fetched.
Variable extractTitle : jstr -> option jstr.
Variable extractFirstEmail : jstr -> option jstr.
Variable hashEmail : jstr -> jstr -> jstr.

Local Abbreviation attempt' := (attempt net).
Local Abbreviation fetchWithRetry' := (fetchWithRetry net).
Local Abbreviation recordOf' := (recordOf extractTitle extractFirstEmail hashEmail).
Local Abbreviation report' := (report extractTitle extractFirstEmail hashEmail).
Local Abbreviation processUrl' :=
  (processUrl net extractTitle extractFirstEmail hashEmail).
Local Abbreviation mainFile' :=
  (mainFile net extractTitle extractFirstEmail hashEmail).
Local Abbreviation visit' :=
  (visit net extractTitle extractFirstEmail hashEmail).

Lemma attempt_run url w :
  attempt' url w
  = let u := addProtocol url in
    let w' := World (S (calls w)) (trace w ++ [Get u]) in
    match succeeded (net (calls w) u) with
    | Some res => (Ret (Some res), w')
    | None => (Throw (failure (net (calls w) u)), w')
    end.
Proof.
  unfold attempt, bind, fetch, succeeded, failure. cbn zeta.
  destruct (net (calls w) (addProtocol url)) as [|res]; [done|].
  by destruct (ok res).
Qed.

(** [fetchWithRetry] never throws: one GET when it succeeds, else a wait of
    60 seconds and one more GET, and one diagnostic when that fails too. *)
Lemma fetchWithRetry_run url w :
  fetchWithRetry' url w
  = let u := addProtocol url in
    let n := calls w in
    match succeeded (net n u) with
    | Some res => (Ret (Some res), World (S n) (trace w ++ [Get u]))
    | None =>
        match succeeded (net (S n) u) with
        | Some res2 =>
            (Ret (Some res2),
             World (S (S n)) (trace w ++ [Get u; Sleep 60000; Get u]))
        | None =>
            (Ret None,
             World (S (S n))
               (trace w ++ [Get u; Sleep 60000; Get u;
                            Stderr (FailedToFetch url (failure (net (S n) u)))]))
        end
    end.
Proof.
  unfold fetchWithRetry, tryCatch. rewrite attempt_run. cbn zeta.
  destruct (succeeded (net (calls w) (addProtocol url))); [done|].
  unfold sleep, emit, bind, ret. rewrite attempt_run.
  cbn [calls trace]. cbn zeta.
  destruct (succeeded (net (S (calls w)) (addProtocol url)));
    cbn [calls trace]; by rewrite <- !app_assoc.
Qed.

Lemma report_run url secret res w :
  report' url secret res w
  = match body res with
    | Some html =>
        (Ret tt, World (calls w) (trace w ++ [Stdout (recordOf' url secret html)]))
    | None => (Throw BodyError, w)
    end.
Proof. unfold report, text, bind. by destruct (body res). Qed.

Lemma processUrl_run url secret w :
  processUrl' url secret w
  = match fetchWithRetry' url w with
    | (Ret (Some res), w') => report' url secret res w'
    | (Ret None, w') => (Ret tt, w')
    | (Throw e, w') => (Throw e, w')
    end.
Proof.
  unfold processUrl, bind.
  by destruct (fetchWithRetry' url w) as [[[res|]|e] w'].
Qed.

Lemma forEach_cons {A} (x : A) rest (f : A -> M unit) w :
  forEach (x :: rest) f w
  = match f x w with
    | (Ret _, w') => forEach rest f w'
    | (Throw e, w') => (Throw e, w')
    end.
Proof. cbn [forEach]. unfold bind. by destruct (f x w) as [[[]|e] w']. Qed.

Lemma visit_run secret url w :
  visit' secret url w
  = match processUrl' url secret w with
    | (Ret _, w') => (Ret tt, World (calls w') (trace w' ++ [Sleep 1000]))
    | (Throw e, w') => (Throw e, w')
    end.
Proof.
  unfold visit, bind, sleep, emit.
  by destruct (processUrl' url secret w) as [[[]|e] w'].
Qed.

(** X17. When the first GET of a URL fails, by a network error or a status
    that is not OK, there is a wait of 60 seconds and exactly one more GET of
    the same address.  When that one succeeds the response is reported as
    one got at once is, a record being printed when its body can be read;
    when it fails too there is no record and exactly one diagnostic, and the
    loop over the URLs goes on with the next one. *)
Theorem X17_one_retry_after_a_minute (url : jstr) (secret : option jstr)
    (w : world) (rest : list jstr) :
  let u := addProtocol url in
  let n := calls w in
  succeeded (net n u) = None ->
  match succeeded (net (S n) u) with
  | Some res2 =>
      let w2 := World (S (S n)) (trace w ++ [Get u; Sleep 60000; Get u]) in
      processUrl' url secret w = report' url secret res2 w2
      /\ forall html, body res2 = Some html ->
           processUrl' url secret w
           = (Ret tt,
              World (S (S n))
                (trace w ++ [Get u; Sleep 60000; Get u;
                             Stdout (recordOf' url secret html)]))
  | None =>
      let d := Stderr (FailedToFetch url (failure (net (S n) u))) in
      processUrl' url secret w
      = (Ret tt, World (S (S n)) (trace w ++ [Get u; Sleep 60000; Get u; d]))
      /\ forEach (url :: rest) (visit' secret) w
         = forEach rest (visit' secret)
             (World (S (S n))
                (trace w ++ [Get u; Sleep 60000; Get u; d; Sleep 1000]))
  end.
Proof.
  intros u n H1.
  assert (Hp : processUrl' url secret w
               = match succeeded (net (S n) u) with
                 | Some res2 =>
                     report' url secret res2
                       (World (S (S n)) (trace w ++ [Get u; Sleep 60000; Get u]))
                 | None =>
                     (Ret tt,
                      World (S (S n))
                        (trace w ++ [Get u; Sleep 60000; Get u;
                           Stderr (FailedToFetch url (failure (net (S n) u)))]))
                 end).
  { rewrite processUrl_run, fetchWithRetry_run. cbn zeta. fold u n.
    rewrite H1. by destruct (succeeded (net (S n) u)). }
  destruct (succeeded (net (S n) u)) as [res2|] eqn:H2; cbn zeta.
  - split; [exact Hp|]. intros html Hb. rewrite Hp, report_run, Hb.
    cbn [calls trace]. by rewrite <- app_assoc.
  - split; [exact Hp|]. rewrite forEach_cons, visit_run, Hp.
    cbn [calls trace]. by rewrite <- app_assoc.
Qed.

(** [processUrl] throws in one case only: a response was got, with a status
    that is OK, and reading its body failed. *)
Lemma processUrl_throws url secret w e w' :
  processUrl' url secret w = (Throw e, w') ->
  e = BodyError
  /\ exists n res, net n (addProtocol url) = Resolved res
       /\ ok res = true /\ body res = None.
Proof.
  rewrite processUrl_run, fetchWithRetry_run. cbn zeta.
  assert (Hs : forall f res, succeeded f = Some res ->
                 f = Resolved res /\ ok res = true).
  { intros [|r] res; cbn; [done|]. destruct (ok r) eqn:E; [|done].
    by intros [= ->]. }
  destruct (succeeded (net (calls w) (addProtocol url))) as [res|] eqn:H1.
  - rewrite report_run. destruct (body res) eqn:Hb; [done|].
    intros [= <- <-]. split; [done|]. apply Hs in H1 as [H1 Hok]. eauto.
  - destruct (succeeded (net (S (calls w)) (addProtocol url))) as [res|] eqn:H2;
      [|done].
    rewrite report_run. destruct (body res) eqn:Hb; [done|].
    intros [= <- <-]. split; [done|]. apply Hs in H2 as [H2 Hok]. eauto.
Qed.

(** Failed fetches never make the loop of [main] throw. *)
Lemma forEach_visit_returns secret urls w :
  (forall n u res, net n u = Resolved res -> ok res = true -> body res <> None) ->
  (forEach urls (visit' secret) w).1 = Ret tt.
Proof.
  intros Hbody. revert w. induction urls as [|url urls IH]; intros w; [done|].
  rewrite forEach_cons, visit_run.
  destruct (processUrl' url secret w) as [[[]|e] w'] eqn:Hp; [apply IH|].
  exfalso. apply processUrl_throws in Hp as (_ & n & res & Hn & Hok & Hb).
  by apply (Hbody n _ res Hn Hok).
Qed.

(** C9, amended. When the input file cannot be read the run prints one
    diagnostic and processes no URL, and [main] returns; it returns as it
    does when the file was read, with nothing that tells a failure.  Nor do
    fetches that fail make it end otherwise: it returns whenever the body of
    every response with an OK status can be read. *)
Theorem C9_unreadable_file_returns (secret : option jstr) (w : world) :
  mainFile' None secret w
  = (Ret tt, World (calls w) (trace w ++ [Stderr FailedToRead]))
  /\ forall text,
       (forall n u res,
          net n u = Resolved res -> ok res = true -> body res <> None) ->
       (mainFile' (Some text) secret w).1 = Ret tt.
Proof.
  split; [done|]. intros text Hbody. unfold mainFile.
  by apply forEach_visit_returns.
Qed.

(** What [processUrl] adds to the trace: GETs of [addProtocol url] only. *)
Lemma processUrl_gets url secret w :
  exists evs,
    trace (processUrl' url secret w).2 = trace w ++ evs
    /\ forall x, Get x ∈ evs -> x = addProtocol url.
Proof.
  rewrite processUrl_run, fetchWithRetry_run. cbn zeta.
  set (u := addProtocol url).
  destruct (succeeded (net (calls w) u)) as [res|];
    [|destruct (succeeded (net (S (calls w)) u)) as [res|]];
    rewrite ?report_run; try destruct (body res);
    cbn [snd trace]; rewrite <- ?app_assoc;
    eexists; (split; [reflexivity|]);
    intros x Hx; cbn [app] in Hx;
    repeat (apply elem_of_cons in Hx as [Hx|Hx]; [by inversion Hx|]);
    by apply elem_of_nil in Hx.
Qed.

End RunProperties.

(** ** addProtocol *)

Lemma ends_http s :
  ends httpRegex s
  = if ciPrefix (js "https://") s then [drop 8 s]
    else if ciPrefix (js "http://") s then [drop 7 s]
    else [].
Proof.
  do 8 (try destruct s as [|? s]);
    cbn [ends httpRegex lits js foldr N_of_ascii ciPrefix flat_map app
         length drop andb];
    canon_cases.
Qed.

Lemma protocol_test s :
  bool_decide (is_Some (matchHere protocolRegex s)) = hasProtocol s.
Proof.
  unfold matchHere, protocolRegex, hasProtocol. rewrite ends_http.
  destruct (ciPrefix (js "https://") s); [by rewrite orb_true_r|].
  rewrite orb_false_r.
  by destruct (ciPrefix (js "http://") s).
Qed.

Lemma hasProtocol_https s : hasProtocol (js "https://" ++ s) = true.
Proof.
  unfold hasProtocol. apply orb_true_iff. right.
  change (js "https://") with (js "https://" ++ []) at 1.
  rewrite ciPrefix_app. by vm_compute.
Qed.

(** C10. [addProtocol] is idempotent and its result always begins with
    [http://] or [https://], in letters of either case: a URL that does so
    already is returned as it is, any other string gets [https://] before
    it; and every GET of [processUrl] is of [addProtocol url]. *)
Theorem C10_addProtocol_idempotent (u : jstr) :
  addProtocol (addProtocol u) = addProtocol u
  /\ hasProtocol (addProtocol u) = true
  /\ addProtocol u = (if hasProtocol u then u else js "https://" ++ u)
  /\ forall net extractTitle extractFirstEmail hashEmail secret w,
     exists evs,
       trace (processUrl net extractTitle extractFirstEmail hashEmail
                u secret w).2 = trace w ++ evs
       /\ forall x, Get x ∈ evs -> x = addProtocol u.
Proof.
  assert (Hdef : forall s,
            addProtocol s = if hasProtocol s then s else js "https://" ++ s).
  { intros s. unfold addProtocol. rewrite protocol_test.
    by destruct (hasProtocol s). }
  assert (Hhas : hasProtocol (addProtocol u) = true).
  { rewrite Hdef. destruct (hasProtocol u) eqn:E; [done|].
    apply hasProtocol_https. }
  split; [by rewrite (Hdef (addProtocol u)), Hhas|].
  split; [done|]. split; [done|].
  intros. apply processUrl_gets.
Qed.

(** ** De-duplication *)

Lemma filter_seen_in (seen : gset jstr) (url : jstr) (l : list jstr) :
  url ∈ seen ->
  filter (fun v => v ∉ seen) (filter (fun v => v ≠ url) l)
  = filter (fun v => v ∉ seen) l.
Proof.
  intros Hin. induction l as [|x l IH]; [done|].
  rewrite !filter_cons. destruct (decide (x ≠ url)) as [Hx|Hx].
  - rewrite filter_cons. by rewrite IH.
  - apply dec_stable in Hx. subst x.
    destruct (decide (url ∉ seen)); [done|]. exact IH.
Qed.

Lemma filter_seen_notin (seen : gset jstr) (url : jstr) (l : list jstr) :
  filter (fun v => v ∉ seen) (filter (fun v => v ≠ url) l)
  = filter (fun v => v ∉ ({[url]} ∪ seen : gset jstr)) l.
Proof.
  induction l as [|x l IH]; [done|].
  rewrite !filter_cons. destruct (decide (x ≠ url)) as [Hx|Hx].
  - rewrite filter_cons, IH.
    destruct (decide (x ∉ seen)) as [Hs|Hs];
      destruct (decide (x ∉ {[url]} ∪ seen)) as [Hu|Hu]; try done;
      exfalso; set_solver.
  - apply dec_stable in Hx. subst x. rewrite IH.
    destruct (decide (url ∉ {[url]} ∪ seen)) as [Hu|Hu]; [|done].
    exfalso. set_solver.
Qed.

Lemma filterSeen_firstOccurrences urls : forall seen : gset jstr,
  filterSeen urls seen
  = (filter (fun v => v ∉ seen) (firstOccurrences urls),
     seen ∪ list_to_set urls).
Proof.
  induction urls as [|u urls IH]; intros seen.
  - cbn. f_equal. set_solver.
  - cbn [filterSeen firstOccurrences]. unfold admitUrl.
    rewrite filter_cons. destruct (decide (u ∈ seen)) as [Hin|Hin].
    + rewrite bool_decide_true by done. rewrite IH.
      destruct (decide (u ∉ seen)); [done|].
      rewrite filter_seen_in by done. f_equal. set_solver.
    + rewrite bool_decide_false by done. rewrite IH.
      destruct (decide (u ∉ seen)); [|done].
      rewrite filter_seen_notin. f_equal. set_solver.
Qed.

Lemma elem_of_firstOccurrences u l : u ∈ firstOccurrences l <-> u ∈ l.
Proof.
  induction l as [|x l IH]; [done|]. cbn [firstOccurrences].
  rewrite !elem_of_cons, list_elem_of_filter, IH.
  destruct (decide (u = x)); naive_solver.
Qed.

Lemma NoDup_firstOccurrences l : NoDup (firstOccurrences l).
Proof.
  induction l as [|x l IH]; [constructor|]. cbn [firstOccurrences].
  constructor; [|by apply NoDup_filter].
  rewrite list_elem_of_filter. naive_solver.
Qed.

Lemma filter_notin_empty (seen : gset jstr) (l : list jstr) :
  seen = ∅ -> filter (fun v => v ∉ seen) l = l.
Proof.
  intros ->. induction l as [|x l IH]; [done|]. rewrite filter_cons, IH.
  destruct (decide (x ∉ (∅ : gset jstr))) as [|H]; [done|].
  exfalso. apply H. set_solver.
Qed.

(** ** The queue of [main] on standard input *)

Lemma spaced_snoc l u t :
  spaced l -> (forall u0 t0, last l = Some (u0, t0) -> t0 + 1000 <= t) ->
  spaced (l ++ [(u, t)]).
Proof.
  induction l as [|[u1 t1] l IH]; intros Hs Hl; [done|].
  cbn [app spaced] in *. destruct Hs as [H1 Hs]. split.
  - destruct l as [|[u2 t2] l]; [|done]. cbn. by apply (Hl u1).
  - apply IH; [done|]. intros u0 t0 H0. apply (Hl u0).
    rewrite last_cons, H0. done.
Qed.

Lemma Inv_stream0 : Inv stream0.
Proof.
  split; cbn; try done; constructor.
Qed.

Lemma Inv_setNow t st : now st <= t -> Inv st -> Inv (setNow t st).
Proof.
  intros Ht [H1 H2 H3 H4 H5]. split; try done.
  cbn. intros Hl. specialize (H5 Hl). unfold synced in *. cbn.
  destruct (task st).
  - destruct H5 as (Hp & Hq & H5). repeat split; try done.
    intros u t0 Hu. specialize (H5 u t0 Hu). lia.
  - destruct H5 as (Hp & t0 & Hu & Hle). split; [done|]. exists t0.
    split; [done|lia].
  - destruct H5 as (Hp & Hle & Hu). repeat split; try done. lia.
Qed.

Lemma Inv_setBuffer b st : Inv st -> Inv (setBuffer b st).
Proof. by intros [H1 H2 H3 H4 H5]. Qed.

(** One URL of a scan: skipped when it has been seen; else recorded and put
    at the end of the queue, from which it is taken at once when no task is
    pending. *)
Lemma admitStep_Inv st url :
  state st = Live -> Inv st ->
  let st' := admitStep st url in
  Inv st' /\ state st' = Live /\ now st' = now st /\ sbuffer st' = sbuffer st
  /\ enqueued st' = (if decide (url ∈ seen st) then enqueued st
                     else enqueued st ++ [url])
  /\ seen st' = {[url]} ∪ seen st.
Proof.
  intros Hl [H1 H2 H3 H4 H5]. specialize (H5 Hl). unfold admitStep.
  destruct (decide (url ∈ seen st)) as [Hin|Hin].
  { rewrite bool_decide_true by done. cbn.
    repeat split; try done. set_solver. }
  rewrite bool_decide_false by done. cbn [negb].
  assert (Hnew : NoDup (enqueued st ++ [url])).
  { apply NoDup_app. split; [done|]. split; [|apply NoDup_singleton].
    intros x Hx ->%list_elem_of_singleton. apply Hin. rewrite H3.
    by apply elem_of_list_to_set. }
  assert (Hset : {[url]} ∪ seen st
                 = (list_to_set (enqueued st ++ [url]) : gset jstr)).
  { rewrite H3, list_to_set_app_L. cbn. set_solver. }
  unfold enqueue, drain, synced in *.
  cbn [processing queue sbuffer seen ended task state sworld now enqueued
       starts].
  destruct (processing st) eqn:Hp.
  - cbn. repeat split; try done.
    + cbn. by rewrite app_assoc, H1.
    + intros _. unfold synced. cbn. destruct (task st); try done.
      destruct H5 as [? _]. congruence.
  - destruct (task st) eqn:Ht; try (destruct H5 as [? _]; congruence).
    destruct H5 as (_ & Hq & Hlast). rewrite Hq in *. cbn.
    rewrite app_nil_r in H1.
    repeat split; try done; cbn.
    + by rewrite fmap_app, app_nil_r, H1.
    + apply spaced_snoc; [done|]. exact Hlast.
    + exists (now st). rewrite last_snoc. split; [done|lia].
Qed.

Lemma foldl_admitStep_Inv urls : forall st,
  state st = Live -> Inv st ->
  let st' := foldl admitStep st urls in
  Inv st' /\ state st' = Live /\ now st' = now st /\ sbuffer st' = sbuffer st
  /\ enqueued st'
     = enqueued st ++ filter (fun v => v ∉ seen st) (firstOccurrences urls)
  /\ seen st' = seen st ∪ list_to_set urls.
Proof.
  induction urls as [|url urls IH]; intros st Hl HI.
  - cbn [foldl firstOccurrences list_to_set]. rewrite filter_nil, app_nil_r.
    do 5 (split; [done|]). by rewrite union_empty_r_L.
  - cbn [foldl firstOccurrences].
    destruct (admitStep_Inv st url Hl HI) as (HI1 & Hl1 & Hn1 & Hb1 & He1 & Hs1).
    destruct (IH _ Hl1 HI1) as (HI2 & Hl2 & Hn2 & Hb2 & He2 & Hs2).
    cbn zeta in *. split; [exact HI2|]. split; [done|].
    split; [congruence|]. split; [congruence|]. split.
    + rewrite He2, He1, Hs1, filter_cons.
      destruct (decide (url ∈ seen st)) as [Hin|Hin].
      * destruct (decide (url ∉ seen st)); [done|].
        rewrite filter_seen_in by done. f_equal.
        assert ({[url]} ∪ seen st = seen st) as -> by set_solver. done.
      * destruct (decide (url ∉ seen st)); [|done].
        rewrite filter_seen_notin, <- app_assoc. done.
    + rewrite Hs2, Hs1. set_solver.
Qed.

Lemma onData_Inv chunk st :
  state st = Live -> Inv st ->
  let urls := parseUrls (sbuffer st ++ chunk) in
  let st' := onData chunk st in
  Inv st' /\ state st' = Live /\ now st' = now st
  /\ enqueued st'
     = enqueued st ++ filter (fun v => v ∉ seen st) (firstOccurrences urls)
  /\ seen st' = seen st ∪ list_to_set urls.
Proof.
  intros Hl HI. unfold onData.
  set (st1 := setBuffer (sbuffer st ++ chunk) st).
  destruct (foldl_admitStep_Inv (parseUrls (sbuffer st1)) st1 Hl
              (Inv_setBuffer _ _ HI)) as (HI2 & Hl2 & Hn2 & Hb2 & He2 & Hs2).
  cbn zeta in *.
  destruct (lastIndexOf RBR _); [split; [by apply Inv_setBuffer|]|split; [done|]];
    by cbn.
Qed.

Lemma onEnd_Inv st : Inv st -> Inv (onEnd st).
Proof.
  intros [H1 H2 H3 H4 H5]. unfold onEnd. cbn.
  destruct (negb (processing st) && bool_decide (queue st = [])); by split.
Qed.

Lemma drainLoop_Inv st since :
  state st = Live -> Inv st -> task st = Sleeping since ->
  since + 1000 <= now st -> Inv (drainLoop st).
Proof.
  intros Hl [H1 H2 H3 H4 H5] Ht Hw. specialize (H5 Hl).
  unfold synced in H5. rewrite Ht in H5. destruct H5 as (Hp & Hle & Hlast).
  unfold drainLoop. destruct (queue st) as [|next q] eqn:Hq.
  - unfold drainFinally. cbn.
    destruct (ended st && bool_decide (queue st = [])); split; cbn;
      rewrite ?Hq; try done.
    intros _. repeat split.
    intros u t Hu. specialize (Hlast u t Hu). lia.
  - split; cbn; try done.
    + by rewrite fmap_app, <- app_assoc.
    + apply (spaced_snoc _ next (now st) H4).
      intros u t Hu. specialize (Hlast u t Hu). lia.
    + intros _. split; [done|]. exists (now st).
      rewrite last_snoc. split; [done|lia].
Qed.

Section StreamProperties.

Variable net : nat -> jstr -> fetched.
Variable extractTitle : jstr -> option jstr.
Variable extractFirstEmail : jstr -> option jstr.
Variable hashEmail : jstr -> jstr -> jstr.
Variable secret : option jstr.

Local Abbreviation onDone' :=
  (onDone net extractTitle extractFirstEmail hashEmail secret).
Local Abbreviation react' :=
  (react net extractTitle extractFirstEmail hashEmail secret).
Local Abbreviation runStream' :=
  (runStream net extractTitle extractFirstEmail hashEmail secret).

Lemma onDone_Inv url st :
  state st = Live -> Inv st -> task st = Running url -> Inv (onDone' url st).
Proof.
  intros Hl [H1 H2 H3 H4 H5] Ht. specialize (H5 Hl).
  unfold synced in H5. rewrite Ht in H5. destruct H5 as (Hp & t & Hlast & Hle).
  unfold onDone.
  destruct (processUrl _ _ _ _ url secret (sworld st)) as [[[]|e] w].
  - split; cbn; try done. intros _. unfold synced. cbn.
    repeat split; [done|lia|]. intros u t0 Hu. rewrite Hlast in Hu.
    injection Hu as -> ->. done.
  - unfold drainFinallyThrow. cbn.
    destruct (ended st && bool_decide (queue st = [])); by split.
Qed.

(** What a turn of the event loop keeps: the invariant; and what it does
    to the URLs enqueued and seen. *)
Lemma react_Inv st ev st' :
  Inv st -> react' st ev = Some st' ->
  Inv st' /\ seen st ⊆ seen st'
  /\ enqueued st `prefix_of` enqueued st'.
Proof.
  intros HI. destruct ev as [t i]. unfold react.
  destruct (isLive (state st)) eqn:Hl; [|done].
  destruct (now st <=? t) eqn:Ht; [|done]. cbn [andb negb].
  apply N.leb_le in Ht.
  assert (Hlive : state (setNow t st) = Live) by (cbn; by destruct (state st)).
  pose proof (Inv_setNow t st Ht HI) as HI'.
  destruct i as [chunk| | |].
  - destruct (ended (setNow t st)); [done|]. intros [= <-].
    destruct (onData_Inv chunk _ Hlive HI') as (HI2 & _ & _ & He & Hs).
    cbn zeta in *. split; [done|]. split.
    + rewrite Hs. cbn. set_solver.
    + rewrite He. cbn. by apply prefix_app_r.
  - destruct (ended (setNow t st)); [done|]. intros [= <-].
    split; [by apply onEnd_Inv|]. unfold onEnd. cbn.
    by destruct (negb (processing st) && bool_decide (queue st = [])).
  - destruct (task (setNow t st)) as [|url|since] eqn:Hk; try done.
    intros [= <-]. split; [by apply onDone_Inv|]. unfold onDone.
    destruct (processUrl _ _ _ _ url secret _) as [[[]|e] w]; [done|].
    unfold drainFinallyThrow. cbn.
    by destruct (ended st && bool_decide (queue st = [])).
  - destruct (task (setNow t st)) as [|url|since] eqn:Hk; try done.
    destruct (since + 1000 <=? t) eqn:Hw; [|done]. apply N.leb_le in Hw.
    intros [= <-]. split; [by apply (drainLoop_Inv _ since)|].
    unfold drainLoop. cbn. destruct (queue st); [|done].
    unfold drainFinally. cbn.
    by destruct (ended st && bool_decide (queue st = [])).
Qed.

Lemma runStream_Inv evs : forall st st',
  Inv st -> runStream' st evs = Some st' ->
  Inv st' /\ seen st ⊆ seen st' /\ enqueued st `prefix_of` enqueued st'.
Proof.
  induction evs as [|ev evs IH]; intros st st' HI.
  - intros [= <-]. done.
  - cbn [runStream]. destruct (react' st ev) as [st1|] eqn:Hr; [|done].
    intros Hrun. destruct (react_Inv _ _ _ HI Hr) as (HI1 & Hs1 & He1).
    destruct (IH _ _ HI1 Hrun) as (HI2 & Hs2 & He2).
    split; [done|]. split; [set_solver|]. by etrans.
Qed.

End StreamProperties.

(** C6. [admitUrl] answers true for a URL not seen before and records it,
    and false for one seen; in a run on a file the URLs kept by the filter
    are the first occurrences of the URLs scanned, in their order and without
    repeats, and [main] processes exactly these, in that order; in
    a run on standard input the URLs enqueued never repeat, are the ones
    seen, and a chunk adds the first occurrences of its URLs not seen
    before; and nothing is ever taken out of the set. *)
Theorem C6_each_url_admitted_once :
  (forall (seen : gset jstr) u,
     admitUrl seen u = (bool_decide (u ∉ seen), {[u]} ∪ seen))
  /\ (forall urls,
        (filterSeen urls ∅).1 = firstOccurrences urls
        /\ NoDup (firstOccurrences urls)
        /\ forall u, u ∈ firstOccurrences urls <-> u ∈ urls)
  /\ (forall net extractTitle extractFirstEmail hashEmail text secret,
        mainFile net extractTitle extractFirstEmail hashEmail (Some text) secret
        = forEach (firstOccurrences (parseUrls text))
            (visit net extractTitle extractFirstEmail hashEmail secret))
  /\ (forall net extractTitle extractFirstEmail hashEmail secret evs st,
        runStream net extractTitle extractFirstEmail hashEmail secret
          stream0 evs = Some st ->
        NoDup (enqueued st) /\ seen st = list_to_set (enqueued st)
        /\ (forall chunk,
              state st = Live ->
              enqueued (onData chunk st)
              = enqueued st
                ++ filter (fun v => v ∉ seen st)
                     (firstOccurrences (parseUrls (sbuffer st ++ chunk))))
        /\ (forall more st',
              runStream net extractTitle extractFirstEmail hashEmail secret
                st more = Some st' ->
              seen st ⊆ seen st' /\ enqueued st `prefix_of` enqueued st')).
Proof.
  split; [|split; [|split]].
  - intros seen u. unfold admitUrl. destruct (decide (u ∈ seen)) as [Hin|Hin].
    + rewrite bool_decide_true, bool_decide_false by tauto.
      f_equal. set_solver.
    + by rewrite bool_decide_false, bool_decide_true by tauto.
  - intros urls. rewrite filterSeen_firstOccurrences. cbn [fst].
    split; [by apply filter_notin_empty|].
    split; [apply NoDup_firstOccurrences|].
    intros u. apply elem_of_firstOccurrences.
  - intros net eT eE hE text secret. unfold mainFile.
    rewrite filterSeen_firstOccurrences. cbn [fst].
    by rewrite filter_notin_empty.
  - intros net eT eE hE secret evs st Hrun.
    destruct (runStream_Inv _ _ _ _ _ _ _ _ Inv_stream0 Hrun) as (HI & _ & _).
    split; [apply HI|]. split; [apply HI|]. split.
    + intros chunk Hl. by destruct (onData_Inv chunk st Hl HI) as (_ & _ & _ & He & _).
    + intros more st' Hmore.
      by destruct (runStream_Inv _ _ _ _ _ _ _ _ HI Hmore) as (_ & Hs & He).
Qed.


Lemma lastIndexOf_None c s : lastIndexOf c s = None <-> c ∉ s.
Proof.
  induction s as [|ch t IH]; cbn.
  - split; [intros _; apply not_elem_of_nil|done].
  - rewrite not_elem_of_cons, <- IH.
    destruct (lastIndexOf c t); [naive_solver|].
    destruct (N.eqb_spec ch c); naive_solver.
Qed.

(** What is kept holds no closing bracket. *)
Lemma afterLastClose_no_close b : RBR ∉ afterLastClose b.
Proof.
  unfold afterLastClose. induction b as [|ch t IH]; cbn.
  - apply not_elem_of_nil.
  - destruct (lastIndexOf RBR t) as [i|] eqn:Hi; [exact IH|].
    apply lastIndexOf_None in Hi.
    destruct (N.eqb_spec ch RBR) as [->|Hne]; cbn; [done|].
    apply not_elem_of_cons. split; [done|exact Hi].
Qed.

Lemma onData_buffer chunk st :
  state st = Live -> Inv st ->
  sbuffer (onData chunk st) = afterLastClose (sbuffer st ++ chunk).
Proof.
  intros Hl HI. unfold onData, afterLastClose.
  set (st1 := setBuffer (sbuffer st ++ chunk) st).
  destruct (foldl_admitStep_Inv (parseUrls (sbuffer st1)) st1 Hl
              (Inv_setBuffer _ _ HI)) as (_ & _ & _ & Hb & _).
  cbn zeta in Hb. rewrite Hb. cbn [sbuffer st1 setBuffer].
  by destruct (lastIndexOf RBR (sbuffer st ++ chunk)).
Qed.

(** C3: what the code does when the body of a response cannot be read.  The
    error leaves [processUrl]; on a file it ends [main] before the next URL
    is fetched; on standard input it ends the process. *)
Lemma C3_body_failure_escapes :
  processUrl netBodyFails noText noText sameEmail (js "www.a.com") None world0
  = (Throw BodyError, World 1 [Get (js "https://www.a.com")])
  /\ mainFile netBodyFails noText noText sameEmail
       (Some (js "[www.a.com] [www.b.com]")) None world0
     = (Throw BodyError, World 1 [Get (js "https://www.a.com")])
  /\ state <$> runStream netBodyFails noText noText sameEmail None stream0
                 [(0, Data (js "[www.a.com] [www.b.com]")); (10, Done)]
     = Some (Crashed BodyError).
Proof. vm_compute. done. Qed.

(** C4: what the code does when the first GET of a URL fails and the second
    gets a response with an OK status whose body cannot be read.  The second
    attempt has succeeded, and yet no record is printed: the error of
    [res.text()] leaves [processUrl] after the wait of 60 seconds and the
    second GET; on a file it ends [main] before the next URL is fetched; on
    standard input it ends the process. *)
Lemma C4_retry_success_body_failure :
  succeeded (netRetryBodyFails 1 (js "https://www.a.com"))
  = Some (Response true 200 None)
  /\ processUrl netRetryBodyFails noText noText sameEmail (js "www.a.com") None
       world0
     = (Throw BodyError,
        World 2 [Get (js "https://www.a.com"); Sleep 60000;
                 Get (js "https://www.a.com")])
  /\ mainFile netRetryBodyFails noText noText sameEmail
       (Some (js "[www.a.com] [www.b.com]")) None world0
     = (Throw BodyError,
        World 2 [Get (js "https://www.a.com"); Sleep 60000;
                 Get (js "https://www.a.com")])
  /\ state <$> runStream netRetryBodyFails noText noText sameEmail None stream0
                 [(0, Data (js "[www.a.com] [www.b.com]")); (60010, Done)]
     = Some (Crashed BodyError).
Proof. vm_compute. done. Qed.

(** X17 at a URL whose first GET fails and whose second succeeds. *)
Lemma X17_witness :
  processUrl netRetry titleT noText sameEmail (js "www.a.com") None world0
  = (Ret tt,
     World 2 [Get (js "https://www.a.com"); Sleep 60000;
              Get (js "https://www.a.com");
              Stdout (Output (js "www.a.com") (Some (js "t")) None)]).
Proof.
  exact (proj2 (X17_one_retry_after_a_minute netRetry titleT noText sameEmail
                  (js "www.a.com") None world0 [] eq_refl)
               (js "<title>t</title>") eq_refl).
Defined.

(** C5: what the code does with a group that is open at the end of a chunk
    and holds a closing bracket, escaped or nested: the buffer is cut after
    that bracket, the opening bracket is lost, and the URL of the group is
    never enqueued, while the same text in one piece gives it. *)
Lemma C5_open_group_lost :
  let run := runStream netOk noText noText sameEmail None stream0 in
  enqueued <$> run [(0, Data (js "[www.a.com \] ")); (1, Data (js "x]"))]
  = Some []
  /\ sbuffer <$> run [(0, Data (js "[www.a.com \] "))] = Some (js " ")
  /\ parseUrls (js "[www.a.com \] x]") = [js "www.a.com"]
  /\ enqueued <$> run [(0, Data (js "[www.a.com [x] ")); (1, Data (js "y]"))]
     = Some []
  /\ parseUrls (js "[www.a.com [x] y]") = [js "www.a.com"].
Proof. vm_compute. done. Qed.


Example sampleSchedule_run :
  let st := default stream0
              (runStream netOk titleT noText sameEmail None stream0
                 sampleSchedule) in
  enqueued st = [js "www.a.com"; js "www.b.comx"]
  /\ starts st = [(js "www.a.com", 0); (js "www.b.comx", 1003)]
  /\ state st = Exited 0.
Proof. vm_compute. done. Qed.

(** C9, as stated, fails: with a file that cannot be read [main]
    returns, as it does with a file that is read and holds no URL; nothing
    reports a failure. *)
Lemma C9_counterexample :
  mainFile netOk titleT noText sameEmail None None world0
  = (Ret tt, World 0 [Stderr FailedToRead])
  /\ (mainFile netOk titleT noText sameEmail None None world0).1
     = (mainFile netOk titleT noText sameEmail (Some (js "no url")) None
          world0).1.
Proof. vm_compute. done. Qed.

(** * More of the scanner *)

Lemma scanFrom_app st a b : scanFrom st (a ++ b) = scanFrom (scanFrom st a) b.
Proof. apply foldl_app. Qed.

Lemma scanStep_not_close st ch :
  ch <> RBR -> results (scanStep st ch) = results st.
Proof.
  intros Hne. destruct st as [r d b l]. rewrite scanStep_results.
  unfold closesGroup. cbn [results].
  by destruct (N.eqb_spec ch RBR).
Qed.

Lemma scanStep_depth0 st ch :
  depth st = 0%nat -> ch <> LBR ->
  depth (scanStep st ch) = 0%nat /\ results (scanStep st ch) = results st.
Proof.
  intros Hd Hne. unfold scanStep. rewrite Hd.
  destruct (N.eqb_spec ch LBR) as [|_]; [done|]. cbn [andb].
  by destruct ((ch =? RBR) && negb (isEscapedBracket ch (lastChar st))).
Qed.

Lemma scanFrom_no_open text : forall st,
  depth st = 0%nat -> LBR ∉ text ->
  depth (scanFrom st text) = 0%nat /\ results (scanFrom st text) = results st.
Proof.
  induction text as [|ch t IH]; intros st Hd Hno; [done|].
  apply not_elem_of_cons in Hno as [Hne Hno].
  destruct (scanStep_depth0 st ch Hd) as [Hd' Hr']; [done|].
  destruct (IH (scanStep st ch) Hd' Hno) as [Hd2 Hr2].
  cbn [scanFrom foldl]. fold (scanFrom (scanStep st ch) t).
  split; [done|congruence].
Qed.

Lemma scanFrom_no_close text : forall st,
  RBR ∉ text -> results (scanFrom st text) = results st.
Proof.
  induction text as [|ch t IH]; intros st Hno; [done|].
  apply not_elem_of_cons in Hno as [Hne Hno].
  cbn [scanFrom foldl]. fold (scanFrom (scanStep st ch) t).
  rewrite IH by done. by apply scanStep_not_close.
Qed.

(** X1. A text without an opening bracket gives no URL, whatever else it
    holds. *)
Theorem X1_no_open_bracket_no_url (text : jstr) :
  LBR ∉ text -> parseUrls text = [].
Proof.
  intros Hno. unfold parseUrls.
  by destruct (scanFrom_no_open text scan0 eq_refl Hno) as [_ ->].
Qed.

Lemma X1_witness : parseUrls (js "see www.a.com] and http://b.org \] x") = [].
Proof.
  apply X1_no_open_bracket_no_url. vm_compute.
  intros H. repeat (apply elem_of_cons in H as [H|H]; [discriminate H|]).
  by apply elem_of_nil in H.
Defined.

(** X2. A text without a closing bracket gives no URL: a group that is never
    closed emits nothing. *)
Theorem X2_no_close_bracket_no_url (text : jstr) :
  RBR ∉ text -> parseUrls text = [].
Proof. intros Hno. unfold parseUrls. by rewrite scanFrom_no_close. Qed.

Lemma X2_witness : parseUrls (js "[www.a.com [http://b.org \[x") = [].
Proof.
  apply X2_no_close_bracket_no_url. vm_compute.
  intros H. repeat (apply elem_of_cons in H as [H|H]; [discriminate H|]).
  by apply elem_of_nil in H.
Defined.

Lemma urlTokens_shape s u :
  u ∈ urlTokens s ->
  exists k, schemeLen u = Some k /\ (k < length u)%nat
    /\ Forall (fun c => urlChar c = true) u.
Proof.
  remember (length s) as n eqn:Hn. revert s Hn.
  induction n as [n IH] using lt_wf_ind. intros s -> Hu.
  rewrite urlTokens_step in Hu.
  destruct (firstToken s) as [[m rest]|] eqn:Hft; [|by apply elem_of_nil in Hu].
  destruct (firstToken_shorter _ _ _ Hft) as [Hlen Hm].
  apply elem_of_cons in Hu as [->|Hu]; [|by apply (IH (length rest) Hlen rest)].
  destruct (firstToken_spec _ _ _ Hft) as (pre & -> & Htok & _).
  destruct (tokenLen_shape _ _ Htok) as (k & Hk & Hlt & Hall & _).
  rewrite take_app_length in Hk, Hall. exists k. repeat split; try done; lia.
Qed.

(** X3. Every URL that [parseUrls] gives begins with [http://], [https://]
    or [www.] (letters of either case), has at least one more character,
    and holds no white space and no bracket. *)
Theorem X3_every_url_is_a_token (text u : jstr) :
  u ∈ parseUrls text ->
  exists k, schemeLen u = Some k /\ (k < length u)%nat
    /\ Forall (fun c => urlChar c = true) u.
Proof.
  rewrite parseUrls_groups. intros Hu.
  apply list_elem_of_In, in_flat_map in Hu as (g & _ & Hu).
  apply list_elem_of_In in Hu. unfold emitOf in Hu.
  destruct (last (urlTokens g)) as [v|] eqn:Hl; cbn in Hu;
    [|by apply elem_of_nil in Hu].
  apply list_elem_of_singleton in Hu as ->.
  apply (urlTokens_shape g). apply last_Some in Hl as [l' ->].
  apply elem_of_app. right. by left.
Qed.

Lemma X3_witness :
  exists k, schemeLen (js "WWW.b.org/x?y") = Some k
    /\ (k < length (js "WWW.b.org/x?y"))%nat
    /\ Forall (fun c => urlChar c = true) (js "WWW.b.org/x?y").
Proof.
  apply (X3_every_url_is_a_token (js "a [http://a.com WWW.b.org/x?y ] b")).
  vm_compute. by left.
Defined.

Lemma pushLast_app r res last0 :
  pushLast (r ++ res) last0 = r ++ pushLast res last0.
Proof. destruct last0 as [[|c u]|]; cbn; by rewrite ?app_assoc. Qed.

(** Two scans in step: the same depth, the same buffer inside a group, the
    same answer to whether the last character was a backslash, and results
    that differ by what the first had at the start. *)
Lemma scanStep_sim r st1 st2 ch :
  depth st1 = depth st2 ->
  ((1 <= depth st1)%nat -> buffer st1 = buffer st2) ->
  bool_decide (lastChar st1 = Some BSL) = bool_decide (lastChar st2 = Some BSL) ->
  results st1 = r ++ results st2 ->
  let s1 := scanStep st1 ch in
  let s2 := scanStep st2 ch in
  depth s1 = depth s2
  /\ ((1 <= depth s1)%nat -> buffer s1 = buffer s2)
  /\ lastChar s1 = lastChar s2
  /\ results s1 = r ++ results s2.
Proof.
  destruct st1 as [r1 d1 b1 l1], st2 as [r2 d2 b2 l2].
  cbn [depth buffer lastChar results]. intros <- Hb Hl ->.
  unfold scanStep, isEscapedBracket. cbn [depth buffer lastChar results].
  rewrite Hl.
  destruct (isBracket ch && bool_decide (l2 = Some BSL)) eqn:He;
    destruct (N.eqb_spec ch LBR) as [HL|HL];
    destruct (N.eqb_spec ch RBR) as [HR|HR];
    cbn [andb negb];
    destruct d1 as [|[|d1]]; cbn -[lastUrl];
    rewrite ?pushLast_app;
    repeat split; try done; try lia;
    try (intros _; rewrite Hb by lia; done);
    try (rewrite Hb by lia; done).
Qed.

Lemma scanFrom_sim r text : forall st1 st2,
  depth st1 = depth st2 ->
  ((1 <= depth st1)%nat -> buffer st1 = buffer st2) ->
  bool_decide (lastChar st1 = Some BSL) = bool_decide (lastChar st2 = Some BSL) ->
  results st1 = r ++ results st2 ->
  depth (scanFrom st1 text) = depth (scanFrom st2 text)
  /\ results (scanFrom st1 text) = r ++ results (scanFrom st2 text).
Proof.
  induction text as [|ch t IH]; intros st1 st2 Hd Hb Hl Hr; [done|].
  cbn [scanFrom foldl].
  destruct (scanStep_sim r st1 st2 ch Hd Hb Hl Hr) as (Hd' & Hb' & Hl' & Hr').
  apply IH; try done. by rewrite Hl'.
Qed.

(** From outside every group, and not right after a backslash, a scan goes
    on as a fresh one does. *)
Lemma scanFrom_fresh st text :
  depth st = 0%nat -> lastChar st <> Some BSL ->
  depth (scanFrom st text) = depth (scanFrom scan0 text)
  /\ results (scanFrom st text) = results st ++ parseUrls text.
Proof.
  intros Hd Hl. apply scanFrom_sim; cbn.
  - done.
  - rewrite Hd. lia.
  - by rewrite bool_decide_false.
  - by rewrite app_nil_r.
Qed.

Lemma parseUrls_app_outside (a b : jstr) :
  depth (scanFrom scan0 a) = 0%nat -> last a <> Some BSL ->
  parseUrls (a ++ b) = parseUrls a ++ parseUrls b.
Proof.
  intros Hd Hl. unfold parseUrls at 1. rewrite scanFrom_app.
  apply scanFrom_fresh; [done|].
  rewrite lastChar_scanFrom. cbn. unfold lastOf. by destruct (last a).
Qed.

(** X5. Scanning splits at every place outside all groups: when the scan of
    [a] ends at depth 0 and [a] does not end with a backslash, the URLs of
    [a ++ b] are those of [a] followed by those of [b]. *)
Theorem X5_scan_splits_outside_groups (a b : jstr) :
  depth (scanFrom scan0 a) = 0%nat -> last a <> Some BSL ->
  parseUrls (a ++ b) = parseUrls a ++ parseUrls b.
Proof. apply parseUrls_app_outside. Qed.

Lemma X5_witness :
  parseUrls (js "x [www.a.com] y" ++ js "] [z http://b.org]")
  = parseUrls (js "x [www.a.com] y") ++ parseUrls (js "] [z http://b.org]").
Proof.
  apply X5_scan_splits_outside_groups; vm_compute; [reflexivity|discriminate].
Defined.

(** * More of fetching and of [main] on a file *)

Section FileMode.

Variable net : nat -> jstr -> fetched.
Variable extractTitle : jstr -> option jstr.
Variable extractFirstEmail : jstr -> option jstr.
Variable hashEmail : jstr -> jstr -> jstr.

Local Abbreviation fetchWithRetry' := (fetchWithRetry net).
Local Abbreviation recordOf' := (recordOf extractTitle extractFirstEmail hashEmail).
Local Abbreviation processUrl' :=
  (processUrl net extractTitle extractFirstEmail hashEmail).
Local Abbreviation mainFile' :=
  (mainFile net extractTitle extractFirstEmail hashEmail).
Local Abbreviation visit' :=
  (visit net extractTitle extractFirstEmail hashEmail).

Lemma succeeded_ok f res : succeeded f = Some res -> ok res = true.
Proof.
  destruct f as [|r]; cbn; [done|]. destruct (ok r) eqn:E; [|done].
  by intros [= <-].
Qed.

(** X6. [fetchWithRetry] never throws.  It calls [fetch] once when the first
    attempt succeeds, with no wait and no diagnostic, and twice otherwise;
    the response it returns has an OK status; and it returns none exactly
    when both attempts failed. *)
Theorem X6_fetchWithRetry_returns (url : jstr) (w : world) :
  let u := addProtocol url in
  exists res w',
    fetchWithRetry' url w = (Ret res, w')
    /\ (forall r, res = Some r -> ok r = true)
    /\ (res = None <->
        succeeded (net (calls w) u) = None
        /\ succeeded (net (S (calls w)) u) = None)
    /\ match succeeded (net (calls w) u) with
       | Some _ => calls w' = S (calls w) /\ trace w' = trace w ++ [Get u]
       | None => calls w' = S (S (calls w))
                 /\ gets (drop (length (trace w)) (trace w')) = [u; u]
       end.
Proof.
  intros u. rewrite fetchWithRetry_run. cbn zeta. fold u.
  destruct (succeeded (net (calls w) u)) as [r1|] eqn:H1.
  { eexists _, _. split; [reflexivity|]. cbn [calls trace].
    split; [intros r [= <-]; by apply (succeeded_ok _ _ H1)|].
    split; [|done]. split; [done|]. by intros [? _]. }
  destruct (succeeded (net (S (calls w)) u)) as [r2|] eqn:H2;
    (eexists _, _; split; [reflexivity|]); cbn [calls trace];
    rewrite drop_app_length.
  - split; [intros r [= <-]; by apply (succeeded_ok _ _ H2)|].
    split; [|done]. split; [done|]. by intros [_ ?].
  - split; [done|]. done.
Qed.

(** X7. The only error that leaves [processUrl] is a body that cannot be
    read: a response was got for the address, with an OK status, and its
    body failed. *)
Theorem X7_processUrl_throws_on_body_only
    (url : jstr) (secret : option jstr) (w : world) (e : error) (w' : world) :
  processUrl' url secret w = (Throw e, w') ->
  e = BodyError
  /\ exists n res, net n (addProtocol url) = Resolved res
       /\ ok res = true /\ body res = None.
Proof. apply processUrl_throws. Qed.

(** What one call of [processUrl] adds to the trace: at most one record, of
    its URL, and one or two GETs. *)
Lemma processUrl_adds url secret w :
  exists evs,
    trace (processUrl' url secret w).2 = trace w ++ evs
    /\ stdoutUrls evs `sublist_of` [url]
    /\ (length (gets evs) <= 2)%nat.
Proof.
  rewrite processUrl_run, fetchWithRetry_run. cbn zeta.
  set (u := addProtocol url).
  destruct (succeeded (net (calls w) u)) as [res|];
    [|destruct (succeeded (net (S (calls w)) u)) as [res|]];
    rewrite ?report_run; try destruct (body res);
    cbn [snd trace]; rewrite <- ?app_assoc;
    eexists; (split; [reflexivity|]); cbn;
    (split; [|lia]);
    first [reflexivity | apply sublist_nil_l].
Qed.

Lemma stdoutUrls_app a b : stdoutUrls (a ++ b) = stdoutUrls a ++ stdoutUrls b.
Proof. apply flat_map_app. Qed.

Lemma gets_app a b : gets (a ++ b) = gets a ++ gets b.
Proof. apply flat_map_app. Qed.

Lemma forEach_visit_adds secret urls : forall w,
  exists evs,
    trace (forEach urls (visit' secret) w).2 = trace w ++ evs
    /\ stdoutUrls evs `sublist_of` urls
    /\ (length (gets evs) <= 2 * length urls)%nat.
Proof.
  induction urls as [|url urls IH]; intros w.
  { exists []. cbn. by rewrite app_nil_r. }
  rewrite forEach_cons, visit_run.
  destruct (processUrl_adds url secret w) as (e1 & H1 & Hs1 & Hg1).
  destruct (processUrl' url secret w) as [[[]|e] w1]; cbn [snd] in H1.
  - destruct (IH (World (calls w1) (trace w1 ++ [Sleep 1000])))
      as (e2 & H2 & Hs2 & Hg2).
    cbn [trace] in H2. exists (e1 ++ [Sleep 1000] ++ e2).
    split; [by rewrite H2, H1, <- !app_assoc|]. split.
    + rewrite !stdoutUrls_app. cbn [stdoutUrls flat_map app].
      by apply (sublist_app _ [url]).
    + rewrite !gets_app, !length_app. cbn. lia.
  - exists e1. cbn [snd]. split; [done|]. split.
    + etrans; [exact Hs1|]. apply sublist_skip, sublist_nil_l.
    + cbn. lia.
Qed.

(** X8. Whatever the network does, a run on a file writes at most one record
    for each distinct URL of the text, in the order of their first
    occurrences, and never a record of another URL; and it fetches at most
    twice for each distinct URL. *)
Theorem X8_file_records_follow_first_occurrences
    (text : jstr) (secret : option jstr) (w : world) :
  exists evs,
    trace (mainFile' (Some text) secret w).2 = trace w ++ evs
    /\ stdoutUrls evs `sublist_of` firstOccurrences (parseUrls text)
    /\ NoDup (stdoutUrls evs)
    /\ (length (gets evs)
        <= 2 * length (firstOccurrences (parseUrls text)))%nat.
Proof.
  unfold mainFile. rewrite filterSeen_firstOccurrences. cbn [fst].
  rewrite filter_notin_empty by done.
  destruct (forEach_visit_adds secret (firstOccurrences (parseUrls text)) w)
    as (evs & H1 & H2 & H3).
  exists evs. split; [done|]. split; [done|]. split; [|done].
  eapply sublist_NoDup; [apply NoDup_firstOccurrences|exact H2].
Qed.

End FileMode.

(** X9. When every fetch succeeds at once with a body that can be read, a
    run on a file fetches each distinct URL of the text once, in the order
    of first occurrences, writes its record and sleeps a second, and [main]
    returns. *)
Theorem X9_file_all_fetches_succeed
    net extractTitle extractFirstEmail hashEmail (page : jstr -> jstr)
    (text : jstr) (secret : option jstr) (w : world) :
  (forall n u, exists st,
     net n u = Resolved (Response true st (Some (page u)))) ->
  let urls := firstOccurrences (parseUrls text) in
  mainFile net extractTitle extractFirstEmail hashEmail (Some text) secret w
  = (Ret tt,
     World (calls w + length urls)
       (trace w
        ++ flat_map
             (fun url =>
                [Get (addProtocol url);
                 Stdout (recordOf extractTitle extractFirstEmail hashEmail
                           url secret (page (addProtocol url)));
                 Sleep 1000]) urls)).
Proof.
  intros Hnet urls. unfold mainFile.
  rewrite filterSeen_firstOccurrences. cbn [fst].
  rewrite filter_notin_empty by done. fold urls. clearbody urls.
  revert w. induction urls as [|url urls IH]; intros w.
  { cbn. unfold ret. by rewrite Nat.add_0_r, app_nil_r; destruct w. }
  rewrite forEach_cons, visit_run, processUrl_run, fetchWithRetry_run.
  cbn zeta. destruct (Hnet (calls w) (addProtocol url)) as [st ->].
  cbn [succeeded ok]. rewrite report_run. cbn [body calls trace].
  rewrite IH. cbn [calls trace length flat_map].
  f_equal. f_equal; [lia|]. by rewrite <- !app_assoc.
Qed.

Lemma X9_witness :
  mainFile netOk titleT noText sameEmail
    (Some (js "[www.a.com] x [www.b.com] [www.a.com]")) None world0
  = (Ret tt,
     World 2
       [Get (js "https://www.a.com");
        Stdout (Output (js "www.a.com") (Some (js "t")) None); Sleep 1000;
        Get (js "https://www.b.com");
        Stdout (Output (js "www.b.com") (Some (js "t")) None); Sleep 1000]).
Proof.
  refine (X9_file_all_fetches_succeed netOk titleT noText sameEmail
            (fun _ => js "<title>t</title>")
            (js "[www.a.com] x [www.b.com] [www.a.com]") None world0 _).
  intros n u. by exists 200.
Defined.

Lemma X7_witness :
  BodyError = BodyError
  /\ exists n res,
       netBodyFails n (addProtocol (js "www.a.com")) = Resolved res
       /\ ok res = true /\ body res = None.
Proof.
  eapply (X7_processUrl_throws_on_body_only netBodyFails noText noText
            sameEmail (js "www.a.com") None world0).
  vm_compute. reflexivity.
Defined.

(** * More of [main] on standard input *)

Lemma admitStep_sbuffer st url : sbuffer (admitStep st url) = sbuffer st.
Proof.
  unfold admitStep, enqueue, drain, drainLoop, drainFinally.
  destruct (bool_decide (url ∈ seen st)); cbn; [done|].
  destruct (processing st); cbn; [done|].
  destruct (queue st ++ [url]); cbn; [|done].
  by destruct (ended st).
Qed.

Lemma foldl_admitStep_sbuffer urls : forall st,
  sbuffer (foldl admitStep st urls) = sbuffer st.
Proof.
  induction urls as [|u urls IH]; intros st; [done|].
  cbn [foldl]. by rewrite IH, admitStep_sbuffer.
Qed.

Lemma afterLastClose_id b : RBR ∉ b -> afterLastClose b = b.
Proof.
  intros H. unfold afterLastClose. by apply lastIndexOf_None in H as ->.
Qed.

Lemma onData_sbuffer chunk st :
  sbuffer (onData chunk st) = afterLastClose (sbuffer st ++ chunk).
Proof.
  unfold onData, afterLastClose. rewrite foldl_admitStep_sbuffer.
  cbn [sbuffer setBuffer].
  destruct (lastIndexOf RBR (sbuffer st ++ chunk)); cbn;
    by rewrite ?foldl_admitStep_sbuffer.
Qed.

(** X10. After every chunk the [data] handler keeps exactly the text after
    the last [']'] of the old buffer with the chunk added; what it keeps
    holds no [']'], so a scan of it alone finds nothing: no group is scanned
    a second time. *)
Theorem X10_retained_buffer_has_no_close (chunk : jstr) (st : stream) :
  sbuffer (onData chunk st) = afterLastClose (sbuffer st ++ chunk)
  /\ (RBR ∉ sbuffer (onData chunk st))
  /\ parseUrls (sbuffer (onData chunk st)) = [].
Proof.
  rewrite onData_sbuffer. split; [done|].
  split; [apply afterLastClose_no_close|].
  apply scanFrom_no_close with (st := scan0), afterLastClose_no_close.
Qed.

Lemma lastIndexOf_app c a b :
  lastIndexOf c (a ++ b)
  = match lastIndexOf c b with
    | Some i => Some (length a + i)%nat
    | None => lastIndexOf c a
    end.
Proof.
  induction a as [|ch a IH]; cbn [app lastIndexOf length].
  - by destruct (lastIndexOf c b).
  - rewrite IH. by destruct (lastIndexOf c b).
Qed.

Lemma lastIndexOf_lt c s i : lastIndexOf c s = Some i -> (i < length s)%nat.
Proof.
  revert i. induction s as [|ch s IH]; intros i; cbn; [done|].
  destruct (lastIndexOf c s) as [j|].
  - intros [= <-]. specialize (IH j eq_refl). lia.
  - destruct (ch =? c); [|done]. intros [= <-]. lia.
Qed.

Lemma afterLastClose_app a b :
  afterLastClose (a ++ b)
  = if bool_decide (RBR ∈ b) then afterLastClose b else afterLastClose a ++ b.
Proof.
  unfold afterLastClose. rewrite lastIndexOf_app.
  destruct (lastIndexOf RBR b) as [i|] eqn:Hb.
  - rewrite bool_decide_true.
    + by rewrite <- Nat.add_succ_r, drop_app_add.
    + destruct (decide (RBR ∈ b)) as [|Hn]; [done|].
      apply lastIndexOf_None in Hn. congruence.
  - rewrite bool_decide_false by (by apply lastIndexOf_None).
    destruct (lastIndexOf RBR a) as [i|] eqn:Ha; [|done].
    rewrite drop_app_le; [done|]. apply lastIndexOf_lt in Ha. lia.
Qed.

Lemma afterLastClose_again a b :
  afterLastClose (afterLastClose a ++ b) = afterLastClose (a ++ b).
Proof.
  rewrite !afterLastClose_app. destruct (bool_decide (RBR ∈ b)); [done|].
  by rewrite afterLastClose_id by apply afterLastClose_no_close.
Qed.

(** A text is what comes up to its last [']'] and what is kept. *)
Lemma afterLastClose_split b :
  exists pre, b = pre ++ afterLastClose b
    /\ (pre = [] \/ exists p, pre = p ++ [RBR]).
Proof.
  induction b as [|ch b (pre & Hb & Hpre)].
  - exists []. by split; [|left].
  - unfold afterLastClose in *. cbn [lastIndexOf].
    destruct (lastIndexOf RBR b) as [i|] eqn:Hi.
    + exists (ch :: pre). cbn [drop]. split; [by rewrite <- app_comm_cons, <- Hb|].
      right. destruct Hpre as [->|[p ->]].
      * exfalso. cbn in Hb. apply lastIndexOf_lt in Hi.
        apply (f_equal length) in Hb. rewrite length_drop in Hb. lia.
      * by exists (ch :: p).
    + destruct (N.eqb_spec ch RBR) as [->|Hne].
      * exists [RBR]. cbn. split; [done|]. right. by exists [].
      * exists []. split; [done|]. by left.
Qed.

Lemma closesAtTop_app st a b :
  closesAtTop st (a ++ b) = closesAtTop st a && closesAtTop (scanFrom st a) b.
Proof.
  revert st. induction a as [|ch a IH]; intros st; [done|].
  cbn [app closesAtTop scanFrom foldl]. fold (scanFrom (scanStep st ch) a).
  by rewrite IH, andb_assoc.
Qed.

Lemma closesAtTop_close st p :
  closesAtTop st (p ++ [RBR]) = true ->
  depth (scanFrom st (p ++ [RBR])) = 0%nat.
Proof.
  rewrite closesAtTop_app, scanFrom_app. intros [_ H]%andb_prop.
  cbn in H. rewrite andb_true_r in H. by apply Nat.eqb_eq in H.
Qed.

(** A chunk after a text whose closing brackets all leave the scan outside
    every group: the URLs of the whole are those found before, then those
    that the scan of the kept buffer with the chunk finds. *)
Lemma parseUrls_retained T chunk :
  closesAtTop scan0 T = true ->
  parseUrls (T ++ chunk)
  = parseUrls T ++ parseUrls (afterLastClose T ++ chunk).
Proof.
  intros Hc. destruct (afterLastClose_split T) as (pre & HT & Hpre).
  assert (Hkept : parseUrls (afterLastClose T) = []).
  { apply scanFrom_no_close with (st := scan0), afterLastClose_no_close. }
  destruct Hpre as [->|[p ->]].
  - cbn in HT. rewrite <- HT in *. by rewrite Hkept.
  - assert (Hd : depth (scanFrom scan0 (p ++ [RBR])) = 0%nat).
    { apply closesAtTop_close. rewrite HT, closesAtTop_app in Hc.
      by apply andb_prop in Hc as [Hc _]. }
    assert (Hl : last (p ++ [RBR]) <> Some BSL) by (by rewrite last_snoc).
    rewrite HT at 1 2. rewrite <- app_assoc.
    rewrite !(parseUrls_app_outside (p ++ [RBR])) by done.
    by rewrite Hkept, app_nil_r.
Qed.

Lemma filter_ne_notin (seen : gset jstr) (url : jstr) (l : list jstr) :
  filter (fun v => v ≠ url) (filter (fun v => v ∉ seen) l)
  = filter (fun v => v ∉ ({[url]} ∪ seen : gset jstr)) l.
Proof.
  induction l as [|x l IH]; [done|].
  rewrite !filter_cons. destruct (decide (x ∉ seen)) as [Hs|Hs].
  - rewrite filter_cons, IH.
    destruct (decide (x ≠ url)) as [Hx|Hx];
      destruct (decide (x ∉ {[url]} ∪ seen)) as [Hu|Hu]; try done;
      exfalso; set_solver.
  - rewrite IH. destruct (decide (x ∉ {[url]} ∪ seen)) as [Hu|Hu]; [|done].
    exfalso. set_solver.
Qed.

Lemma firstOccurrences_app (a b : list jstr) :
  firstOccurrences (a ++ b)
  = firstOccurrences a
    ++ filter (fun v => v ∉ (list_to_set a : gset jstr)) (firstOccurrences b).
Proof.
  induction a as [|u a IH].
  - cbn [app firstOccurrences]. by rewrite filter_notin_empty.
  - cbn [app firstOccurrences list_to_set]. rewrite IH, filter_app.
    by rewrite filter_ne_notin.
Qed.

Lemma list_to_set_firstOccurrences (l : list jstr) :
  (list_to_set (firstOccurrences l) : gset jstr) = list_to_set l.
Proof.
  apply set_eq. intros u. rewrite !elem_of_list_to_set.
  apply elem_of_firstOccurrences.
Qed.

Lemma drainLoop_keeps st :
  sbuffer (drainLoop st) = sbuffer st /\ enqueued (drainLoop st) = enqueued st.
Proof.
  unfold drainLoop, drainFinally. destruct (queue st); cbn; [|done].
  by destruct (ended st).
Qed.

Section StreamAndFile.

Variable net : nat -> jstr -> fetched.
Variable extractTitle : jstr -> option jstr.
Variable extractFirstEmail : jstr -> option jstr.
Variable hashEmail : jstr -> jstr -> jstr.
Variable secret : option jstr.

Local Abbreviation onDone' :=
  (onDone net extractTitle extractFirstEmail hashEmail secret).
Local Abbreviation react' :=
  (react net extractTitle extractFirstEmail hashEmail secret).
Local Abbreviation runStream' :=
  (runStream net extractTitle extractFirstEmail hashEmail secret).

Lemma onDone_keeps url st :
  sbuffer (onDone' url st) = sbuffer st
  /\ enqueued (onDone' url st) = enqueued st.
Proof.
  unfold onDone, drainFinallyThrow.
  destruct (processUrl _ _ _ _ url secret (sworld st)) as [[[]|e] w]; cbn;
    [done|]. by destruct (ended st && bool_decide (queue st = [])).
Qed.

(** One turn of the event loop, for a text whose closing brackets all leave
    the scan outside every group: the buffer is what is kept of the text
    received, the URLs enqueued are the first occurrences of its URLs. *)
Lemma react_received st ev st' T :
  Inv st -> sbuffer st = afterLastClose T ->
  enqueued st = firstOccurrences (parseUrls T) ->
  closesAtTop scan0 (T ++ received [ev]) = true ->
  react' st ev = Some st' ->
  sbuffer st' = afterLastClose (T ++ received [ev])
  /\ enqueued st' = firstOccurrences (parseUrls (T ++ received [ev])).
Proof.
  intros HI Hb He Hc. destruct ev as [t i]. unfold react.
  destruct (isLive (state st)) eqn:Hl; [|done].
  destruct (now st <=? t) eqn:Ht; [|done]. cbn [andb negb].
  apply N.leb_le in Ht.
  assert (Hlive : state (setNow t st) = Live) by (cbn; by destruct (state st)).
  pose proof (Inv_setNow t st Ht HI) as HI'.
  unfold received in *. cbn [flat_map snd] in *. rewrite app_nil_r in *.
  destruct i as [chunk| | |]; rewrite ?app_nil_r in *.
  - destruct (ended (setNow t st)); [done|]. intros [= <-].
    destruct (onData_Inv chunk _ Hlive HI') as (_ & _ & _ & He' & _).
    cbn zeta in He'. cbn [enqueued sbuffer seen setNow] in He'.
    split.
    + rewrite onData_sbuffer.
      cbn [sbuffer setNow]. by rewrite Hb, afterLastClose_again.
    + rewrite He'. rewrite closesAtTop_app in Hc.
      apply andb_prop in Hc as [Hc _].
      rewrite (parseUrls_retained T chunk Hc), firstOccurrences_app, He, Hb.
      f_equal. rewrite (inv_seen _ HI), He, list_to_set_firstOccurrences.
      done.
  - destruct (ended (setNow t st)); [done|]. intros [= <-].
    unfold onEnd. cbn.
    by destruct (negb (processing st) && bool_decide (queue st = [])).
  - destruct (task (setNow t st)) as [|url|since] eqn:Hk; try done.
    intros [= <-]. by destruct (onDone_keeps url (setNow t st)) as [-> ->].
  - destruct (task (setNow t st)) as [|url|since] eqn:Hk; try done.
    destruct (since + 1000 <=? t); [|done]. intros [= <-].
    by destruct (drainLoop_keeps (setNow t st)) as [-> ->].
Qed.

Lemma received_cons ev evs : received (ev :: evs) = received [ev] ++ received evs.
Proof. unfold received. cbn. by rewrite app_nil_r. Qed.

Lemma runStream_received evs : forall st st' T,
  Inv st -> sbuffer st = afterLastClose T ->
  enqueued st = firstOccurrences (parseUrls T) ->
  closesAtTop scan0 (T ++ received evs) = true ->
  runStream' st evs = Some st' ->
  sbuffer st' = afterLastClose (T ++ received evs)
  /\ enqueued st' = firstOccurrences (parseUrls (T ++ received evs)).
Proof.
  induction evs as [|ev evs IH]; intros st st' T HI Hb He Hc.
  - intros [= <-]. unfold received. cbn. by rewrite app_nil_r.
  - cbn [runStream]. destruct (react' st ev) as [st1|] eqn:Hr; [|done].
    intros Hrun. rewrite received_cons, app_assoc in Hc |- *.
    assert (Hc1 : closesAtTop scan0 (T ++ received [ev]) = true).
    { rewrite closesAtTop_app in Hc. by apply andb_prop in Hc as [Hc _]. }
    destruct (react_received _ _ _ _ HI Hb He Hc1 Hr) as [Hb1 He1].
    destruct (react_Inv _ _ _ _ _ _ _ _ HI Hr) as (HI1 & _ & _).
    by apply (IH st1 st' _ HI1 Hb1 He1 Hc).
Qed.

(** X11. On standard input, when every [']'] of the text received closes an
    outermost group or stands outside every group, the URLs enqueued are,
    however the text is cut into chunks and whatever happens in between,
    the first occurrences of the URLs that [parseUrls] finds in the whole
    text: what a run on a file with that text processes. *)
Theorem X11_stream_enqueues_what_file_processes
    (evs : list (N * input)) (st : stream) :
  runStream' stream0 evs = Some st ->
  closesAtTop scan0 (received evs) = true ->
  enqueued st = firstOccurrences (parseUrls (received evs))
  /\ enqueued st = (filterSeen (parseUrls (received evs)) ∅).1
  /\ sbuffer st = afterLastClose (received evs).
Proof.
  intros Hrun Hc.
  destruct (runStream_received evs stream0 st [] Inv_stream0 eq_refl eq_refl
              Hc Hrun) as [Hb He].
  cbn [app] in *. split; [done|]. split; [|done].
  rewrite filterSeen_firstOccurrences. cbn [fst].
  by rewrite filter_notin_empty.
Qed.

End StreamAndFile.

Lemma admitStep_ended st url : ended (admitStep st url) = ended st.
Proof.
  unfold admitStep, enqueue, drain, drainLoop, drainFinally.
  destruct (bool_decide (url ∈ seen st)); cbn; [done|].
  destruct (processing st); cbn; [done|].
  destruct (queue st ++ [url]); cbn; [|done].
  by destruct (ended st).
Qed.

Lemma onData_ended chunk st : ended (onData chunk st) = ended st.
Proof.
  assert (H : forall urls s, ended (foldl admitStep s urls) = ended s).
  { induction urls as [|u urls IH]; intros s; [done|].
    cbn [foldl]. by rewrite IH, admitStep_ended. }
  unfold onData. destruct (lastIndexOf RBR _); cbn; by rewrite H.
Qed.

Section StreamEnds.

Variable net : nat -> jstr -> fetched.
Variable extractTitle : jstr -> option jstr.
Variable extractFirstEmail : jstr -> option jstr.
Variable hashEmail : jstr -> jstr -> jstr.
Variable secret : option jstr.

Local Abbreviation react' :=
  (react net extractTitle extractFirstEmail hashEmail secret).
Local Abbreviation runStream' :=
  (runStream net extractTitle extractFirstEmail hashEmail secret).

Lemma react_settled st ev st' :
  Inv st -> react' st ev = Some st' -> settled st'.
Proof.
  intros HI. destruct ev as [t i]. unfold react.
  destruct (isLive (state st)) eqn:Hl; [|done].
  destruct (now st <=? t) eqn:Ht; [|done]. cbn [andb negb].
  apply N.leb_le in Ht.
  assert (Hst : state st = Live) by (by destruct (state st)).
  assert (Hlive : state (setNow t st) = Live) by done.
  pose proof (Inv_setNow t st Ht HI) as HI'.
  pose proof (inv_synced _ HI' Hlive) as Hsync. unfold synced in Hsync.
  cbn [task processing queue starts now setNow] in Hsync.
  destruct i as [chunk| | |]; cbn [task ended setNow].
  - destruct (ended st) eqn:He; [done|]. intros [= <-].
    destruct (onData_Inv chunk _ Hlive HI') as (_ & Hl' & _).
    unfold settled. rewrite Hl', onData_ended. cbn [ended setNow].
    by rewrite He.
  - destruct (ended st); [done|]. intros [= <-].
    unfold onEnd. cbn [processing queue setNow].
    destruct (negb (processing st) && bool_decide (queue st = [])) eqn:Hc;
      unfold settled; cbn.
    + apply andb_prop in Hc as [Hp%negb_true_iff Hq%bool_decide_eq_true].
      done.
    + rewrite Hst. intros _ Hk. rewrite Hk in Hsync.
      destruct Hsync as (Hp & Hq & _). rewrite Hp, Hq in Hc. done.
  - destruct (task st) as [|url|since] eqn:Hk; try done.
    intros [= <-]. unfold onDone. cbn [sworld setNow].
    destruct (processUrl _ _ _ _ url secret _) as [[[]|e] w] eqn:Hp.
    + unfold settled. cbn. by rewrite Hst.
    + apply processUrl_throws in Hp as [-> _].
      unfold drainFinallyThrow. cbn [ended queue].
      match goal with
      | |- context [if ?c then _ else _] => destruct c eqn:Hc
      end; unfold settled; cbn; [|done].
      by apply andb_prop in Hc as [He Hq%bool_decide_eq_true].
  - destruct (task st) as [|url|since] eqn:Hk; try done.
    destruct (since + 1000 <=? t); [|done]. intros [= <-].
    unfold drainLoop. cbn [queue setNow].
    destruct (queue st) eqn:Hq.
    + unfold drainFinally. cbn [ended queue].
      match goal with
      | |- context [if ?c then _ else _] => destruct c eqn:Hc
      end; unfold settled; cbn.
      * by apply andb_prop in Hc as [He _].
      * rewrite Hst. intros He. cbn in Hc. rewrite He, Hq in Hc. done.
    + unfold settled. cbn. by rewrite Hst.
Qed.

Lemma runStream_settled evs : forall st st',
  Inv st -> settled st -> runStream' st evs = Some st' -> settled st'.
Proof.
  induction evs as [|ev evs IH]; intros st st' HI Hs.
  - by intros [= <-].
  - cbn [runStream]. destruct (react' st ev) as [st1|] eqn:Hr; [|done].
    destruct (react_Inv _ _ _ _ _ _ _ _ HI Hr) as (HI1 & _ & _).
    apply IH; [done|]. by apply (react_settled st ev).
Qed.

(** X12. On standard input the process exits with code 0 only, and only
    once the input has ended and the queue is empty, every URL enqueued
    having been taken off it; it dies otherwise only of a body that could
    not be read; and while it lives with no task pending, the queue is
    empty and the input has not ended: no URL is left behind. *)
Theorem X12_exit_only_when_drained (evs : list (N * input)) (st : stream) :
  runStream' stream0 evs = Some st ->
  match state st with
  | Exited c =>
      c = 0 /\ ended st = true /\ queue st = []
      /\ (starts st).*1 = enqueued st
  | Crashed e => e = BodyError
  | Live =>
      task st = Idle ->
      ended st = false /\ queue st = [] /\ processing st = false
  end.
Proof.
  intros Hrun.
  destruct (runStream_Inv _ _ _ _ _ _ _ _ Inv_stream0 Hrun) as (HI & _ & _).
  assert (Hs : settled st).
  { apply (runStream_settled evs stream0); [apply Inv_stream0|done|done]. }
  unfold settled in Hs. pose proof (inv_fifo _ HI) as Hf.
  pose proof (inv_synced _ HI) as Hsync. unfold synced in Hsync.
  destruct (state st) as [|c|e].
  - intros Hk. specialize (Hsync eq_refl). rewrite Hk in Hsync.
    destruct Hsync as (Hp & Hq & _). split; [|done].
    destruct (ended st); [|done]. by destruct (Hs eq_refl).
  - destruct Hs as (-> & He & Hq & _). rewrite Hq, app_nil_r in Hf. done.
  - by destruct Hs.
Qed.

End StreamEnds.

Lemma X11_witness :
  let st := default stream0
              (runStream netOk titleT noText sameEmail None stream0
                 sampleSchedule) in
  enqueued st = firstOccurrences (parseUrls (received sampleSchedule))
  /\ enqueued st = (filterSeen (parseUrls (received sampleSchedule)) ∅).1
  /\ sbuffer st = afterLastClose (received sampleSchedule).
Proof.
  refine (X11_stream_enqueues_what_file_processes netOk titleT noText
            sameEmail None sampleSchedule
            (default stream0
               (runStream netOk titleT noText sameEmail None stream0
                  sampleSchedule)) _ _); vm_compute; reflexivity.
Defined.

Lemma X12_witness :
  let st := default stream0
              (runStream netOk titleT noText sameEmail None stream0
                 sampleSchedule) in
  match state st with
  | Exited c =>
      c = 0 /\ ended st = true /\ queue st = []
      /\ (starts st).*1 = enqueued st
  | Crashed e => e = BodyError
  | Live =>
      task st = Idle ->
      ended st = false /\ queue st = [] /\ processing st = false
  end.
Proof.
  refine (X12_exit_only_when_drained netOk titleT noText sameEmail None
            sampleSchedule
            (default stream0
               (runStream netOk titleT noText sameEmail None stream0
                  sampleSchedule)) _).
  vm_compute. reflexivity.
Defined.

(** * The helpers of [utils] *)

Example extractTitle_sample :
  extractTitle (js "<html><head><TITLE lang=en>  Page Title </Title></head>")
  = Some (js "Page Title").
Proof. vm_compute. reflexivity. Qed.

Example extractTitle_none : extractTitle (js "<html><title>a<b></title>") = None.
Proof. vm_compute. reflexivity. Qed.

Example extractFirstEmail_sample :
  extractFirstEmail (js "<a href=mailto:hello@ingemark.com>x@y.org</a>")
  = Some (js "hello@ingemark.com").
Proof. vm_compute. reflexivity. Qed.

Lemma elem_of_flat_map {A B} (f : A -> list B) (l : list A) (x : B) :
  x ∈ flat_map f l <-> exists y, y ∈ l /\ x ∈ f y.
Proof.
  rewrite list_elem_of_In, in_flat_map. split; intros (y & Hy & Hx); exists y;
    by rewrite ?list_elem_of_In in *.
Qed.

Lemma iterate_suffix (e : jstr -> list jstr) :
  (forall s x, x ∈ e s -> exists w, s = w ++ x) ->
  forall fuel s rest, rest ∈ iterate e fuel s -> exists w, s = w ++ rest.
Proof.
  intros He. induction fuel as [|f IH]; intros s rest; cbn [iterate].
  - by intros ?%elem_of_nil.
  - intros (s' & Hs' & Hr)%elem_of_flat_map. destruct (He _ _ Hs') as [w ->].
    apply elem_of_app in Hr as [Hr|Hr%list_elem_of_singleton].
    + destruct (IH _ _ Hr) as [w' ->]. exists (w ++ w'). by rewrite app_assoc.
    + subst. by exists w.
Qed.

(** What the matcher leaves is an end of the text. *)
Lemma ends_suffix r : forall s rest, rest ∈ ends r s -> exists w, s = w ++ rest.
Proof.
  induction r as [|c|p|r1 IH1 r2 IH2|r1 IH1 r2 IH2|r IH|r IH];
    intros s rest; cbn [ends].
  - intros ->%list_elem_of_singleton. by exists [].
  - destruct s as [|ch t]; [by intros ?%elem_of_nil|].
    destruct (canon ch =? canon c); [|by intros ?%elem_of_nil].
    intros ->%list_elem_of_singleton. by exists [ch].
  - destruct s as [|ch t]; [by intros ?%elem_of_nil|].
    destruct (p ch); [|by intros ?%elem_of_nil].
    intros ->%list_elem_of_singleton. by exists [ch].
  - intros (s1 & H1 & H2)%elem_of_flat_map.
    destruct (IH1 _ _ H1) as [w1 ->]. destruct (IH2 _ _ H2) as [w2 ->].
    exists (w1 ++ w2). by rewrite app_assoc.
  - intros [H|H]%elem_of_app; [by apply IH1|by apply IH2].
  - intros [H| ->%list_elem_of_singleton]%elem_of_app; [by apply IH|by exists []].
  - by apply iterate_suffix.
Qed.

Lemma exec_sound r s m rest :
  exec r s = Some (m, rest) ->
  exists pre, s = pre ++ m ++ rest /\ rest ∈ ends r (m ++ rest).
Proof.
  induction s as [|c t IH]; cbn [exec]; unfold matchHere.
  - destruct (ends r []) as [|x l] eqn:He; [done|]. cbn.
    intros [= <- <-]. destruct (ends_suffix r [] x) as [w Hw].
    { rewrite He. by left. }
    symmetry in Hw. apply app_eq_nil in Hw as [-> ->].
    exists []. cbn. split; [done|]. rewrite He. by left.
  - destruct (ends r (c :: t)) as [|x l] eqn:He; cbn.
    + intros H. destruct (IH H) as (pre & -> & Hin). by exists (c :: pre).
    + intros [= <- <-]. destruct (ends_suffix r (c :: t) x) as [w Hw].
      { rewrite He. by left. }
      clear IH.
      assert (Hm : take (S (length t) - length x) (c :: t) = w).
      { change (S (length t)) with (length (c :: t)).
        by rewrite Hw, length_app, Nat.add_sub, take_app_length. }
      rewrite Hm. exists []. cbn [app]. split; [done|].
      rewrite <- Hw, He. by left.
Qed.

Lemma exec_complete r s k rest :
  rest ∈ ends r (drop k s) -> is_Some (exec r s).
Proof.
  revert k. induction s as [|c t IH]; intros k; cbn [exec]; unfold matchHere.
  - rewrite drop_nil. destruct (ends r []); [by intros ?%elem_of_nil|].
    by eexists.
  - destruct (ends r (c :: t)) as [|x l] eqn:He; cbn; [|by eexists].
    destruct k as [|k]; cbn [drop].
    + rewrite He. by intros ?%elem_of_nil.
    + apply IH.
Qed.

Lemma iterate_cls_sound p fuel : forall s rest,
  rest ∈ iterate (ends (Cls p)) fuel s ->
  exists w, s = w ++ rest /\ w <> [] /\ Forall (fun c => p c = true) w.
Proof.
  induction fuel as [|f IH]; intros s rest; cbn [iterate].
  - by intros ?%elem_of_nil.
  - intros (s' & Hs' & Hr)%elem_of_flat_map. cbn [ends] in Hs'.
    destruct s as [|ch t]; [by apply elem_of_nil in Hs'|].
    destruct (p ch) eqn:Hp; [|by apply elem_of_nil in Hs'].
    apply list_elem_of_singleton in Hs' as ->.
    apply elem_of_app in Hr as [Hr|Hr%list_elem_of_singleton].
    + destruct (IH _ _ Hr) as (w & -> & _ & Hw). exists (ch :: w).
      repeat split; [done|]. by constructor.
    + subst. exists [ch]. repeat split; [done|]. by constructor.
Qed.

Lemma iterate_cls_complete p w : forall fuel rest,
  w <> [] -> Forall (fun c => p c = true) w ->
  (length (w ++ rest) < fuel)%nat ->
  rest ∈ iterate (ends (Cls p)) fuel (w ++ rest).
Proof.
  induction w as [|c w IH]; intros fuel rest Hne Hall Hf; [done|].
  apply Forall_cons in Hall as [Hc Hall].
  destruct fuel as [|f]; [lia|]. cbn [iterate app ends]. rewrite Hc.
  cbn [flat_map]. rewrite app_nil_r. cbn in Hf.
  destruct w as [|c' w].
  - cbn. apply elem_of_app. right. by left.
  - apply elem_of_app. left. apply IH; [done|done|lia].
Qed.

(** Under [i] a character below [A] is matched by itself only. *)
Lemma canon_below_letters c ch : c < 65 -> canon ch = canon c -> ch = c.
Proof.
  intros Hc. unfold canon.
  destruct ((97 <=? c) && (c <=? 122)) eqn:Ec.
  { apply andb_prop in Ec as [?%N.leb_le ?%N.leb_le]. lia. }
  destruct ((97 <=? ch) && (ch <=? 122)) eqn:E; [|done].
  apply andb_prop in E as [?%N.leb_le ?%N.leb_le]. lia.
Qed.

Lemma ends_seq_elem r1 r2 s x :
  x ∈ ends (Seq r1 r2) s <-> exists y, y ∈ ends r1 s /\ x ∈ ends r2 y.
Proof. cbn [ends]. apply elem_of_flat_map. Qed.

Lemma ends_lit_elem c s x :
  x ∈ ends (Lit c) s <-> exists ch, s = ch :: x /\ canon ch = canon c.
Proof.
  cbn [ends]. destruct s as [|ch t].
  - split; [by intros ?%elem_of_nil|by intros (? & ? & _)].
  - destruct (N.eqb_spec (canon ch) (canon c)) as [E|E].
    + rewrite list_elem_of_singleton. split; [intros ->; by exists ch|].
      by intros (? & [= _ ->] & _).
    + split; [by intros ?%elem_of_nil|]. by intros (? & [= <- _] & ?).
Qed.

Lemma ends_cls_elem p s x :
  x ∈ ends (Cls p) s <-> exists ch, s = ch :: x /\ p ch = true.
Proof.
  cbn [ends]. destruct s as [|ch t].
  - split; [by intros ?%elem_of_nil|by intros (? & ? & _)].
  - destruct (p ch) eqn:E.
    + rewrite list_elem_of_singleton. split; [intros ->; by exists ch|].
      by intros (? & [= _ ->] & _).
    + split; [by intros ?%elem_of_nil|]. intros (? & [= <- _] & ?). congruence.
Qed.

Lemma ends_plus_cls_elem p s x :
  x ∈ ends (Plus (Cls p)) s
  <-> exists w, s = w ++ x /\ w <> [] /\ Forall (fun c => p c = true) w.
Proof.
  cbn [ends]. split; [apply iterate_cls_sound|].
  intros (w & -> & Hne & Hall). apply iterate_cls_complete; [done|done|lia].
Qed.

(** What [emailRegex] takes from the head of a text is an address, and it
    can take every address that the text begins with. *)
Lemma ends_email s rest :
  rest ∈ ends emailRegex s <-> exists e, s = e ++ rest /\ emailShaped e.
Proof.
  unfold emailRegex, emailShaped. rewrite ends_seq_elem. split.
  - intros (s1 & (l & -> & Hl & Hla)%ends_plus_cls_elem & H).
    apply ends_seq_elem in H as (s2 & (ch & -> & Hch)%ends_lit_elem & H).
    apply canon_below_letters in Hch as ->; [|done].
    apply ends_seq_elem in H as (s3 & (d & -> & Hd & Hda)%ends_plus_cls_elem & H).
    apply ends_seq_elem in H as (s4 & (ch & -> & Hch)%ends_lit_elem & H).
    apply canon_below_letters in Hch as ->; [|done].
    apply ends_seq_elem in H as (s5 & (a & -> & Ha)%ends_cls_elem & H).
    apply ends_plus_cls_elem in H as (t & -> & Ht & Hta).
    exists (l ++ 64 :: d ++ 46 :: a :: t). split.
    { by rewrite <- !app_assoc, <- !app_comm_cons, <- !app_assoc. }
    exists l, d, (a :: t). repeat split; try done.
    + destruct t; [done|cbn; lia].
    + by constructor.
  - intros (e & -> & l & d & t & -> & Hl & Hla & Hd & Hda & Ht & Hta).
    destruct t as [|a [|b t]]; [cbn in Ht; lia..|].
    apply Forall_cons in Hta as [Ha Hta].
    exists (64 :: d ++ 46 :: a :: b :: t ++ rest). split.
    { apply ends_plus_cls_elem. exists l. split; [|done].
      by rewrite <- !app_assoc, <- !app_comm_cons, <- !app_assoc. }
    apply ends_seq_elem. exists (d ++ 46 :: a :: b :: t ++ rest).
    split; [apply ends_lit_elem; by exists 64|].
    apply ends_seq_elem. exists (46 :: a :: b :: t ++ rest).
    split; [apply ends_plus_cls_elem; by exists d|].
    apply ends_seq_elem. exists (a :: b :: t ++ rest).
    split; [apply ends_lit_elem; by exists 46|].
    apply ends_seq_elem. exists (b :: t ++ rest).
    split; [apply ends_cls_elem; by exists a|].
    apply ends_plus_cls_elem. by exists (b :: t).
Qed.

(** X13. What [extractFirstEmail] returns is a piece of the page that reads
    as an address: one character or more of the local part, [@], one
    character or more of the domain, a dot, and two letters or more. *)
Theorem X13_email_found_is_an_address (html e : jstr) :
  extractFirstEmail html = Some e ->
  exists pre rest, html = pre ++ e ++ rest /\ emailShaped e.
Proof.
  unfold extractFirstEmail.
  destruct (exec emailRegex html) as [[m rest]|] eqn:He; [|done].
  intros [= <-]. destruct (exec_sound _ _ _ _ He) as (pre & -> & Hin).
  apply ends_email in Hin as (e & He' & Hshape).
  apply app_inv_tail in He' as <-. by exists pre, rest.
Qed.

Lemma X13_witness :
  exists pre rest,
    js "mail x.y+z@a-b.example.org!" = pre ++ js "x.y+z@a-b.example.org" ++ rest
    /\ emailShaped (js "x.y+z@a-b.example.org").
Proof.
  apply (X13_email_found_is_an_address (js "mail x.y+z@a-b.example.org!")).
  vm_compute. reflexivity.
Defined.

(** X14. [extractFirstEmail] finds an address exactly when the page holds
    one: it returns none if and only if no piece of the page reads as an
    address; so a page without [@] gives none. *)
Theorem X14_email_found_iff_present (html : jstr) :
  (is_Some (extractFirstEmail html)
   <-> exists pre e rest, html = pre ++ e ++ rest /\ emailShaped e)
  /\ (64 ∉ html -> extractFirstEmail html = None).
Proof.
  assert (Hiff : is_Some (extractFirstEmail html)
                 <-> exists pre e rest, html = pre ++ e ++ rest /\ emailShaped e).
  { split.
    - intros [e He]. unfold extractFirstEmail in He.
      destruct (exec emailRegex html) as [[m rest]|] eqn:Hx; [|done].
      injection He as <-. destruct (exec_sound _ _ _ _ Hx) as (pre & -> & Hin).
      apply ends_email in Hin as (e & He' & Hshape).
      apply app_inv_tail in He' as <-. by exists pre, m, rest.
    - intros (pre & e & rest & -> & Hshape). unfold extractFirstEmail.
      destruct (exec_complete emailRegex (pre ++ e ++ rest) (length pre) rest)
        as [[m r] ->]; [|by eexists].
      rewrite drop_app_length. apply ends_email. by exists e. }
  split; [exact Hiff|]. intros Hno.
  destruct (extractFirstEmail html) as [e|] eqn:He; [|done]. exfalso.
  destruct (proj1 Hiff (ltac:(by eexists))) as (pre & e' & rest & -> & Hs).
  destruct Hs as (l & d & t & -> & _). apply Hno.
  apply elem_of_app. right. apply elem_of_app. left.
  apply elem_of_app. right. by left.
Qed.

Lemma dropRun_suffix p s : exists w, s = w ++ dropRun p s.
Proof. exists (takeRun p s). by rewrite takeRun_dropRun. Qed.

Lemma dropRun_head p s c : head (dropRun p s) = Some c -> p c = false.
Proof.
  intros H. pose proof (dropRun_stop p s) as Hs. rewrite H in Hs. cbn in Hs.
  destruct (p c); congruence.
Qed.

Lemma dropRun_app_stop p t r :
  Forall (fun c => p c = true) t ->
  (forall c, head r = Some c -> p c = false) ->
  dropRun p (t ++ r) = r.
Proof.
  intros Ht Hr. induction Ht as [|c t Hc Ht IH]; cbn.
  - destruct r as [|c r]; [done|]. cbn. by rewrite (Hr c).
  - by rewrite Hc.
Qed.

(** A trimmed text is a piece of the text, and neither begins nor ends with
    white space. *)
Lemma trim_part s : exists a b, s = a ++ trim s ++ b.
Proof.
  unfold trim. destruct (dropRun_suffix isSpace s) as [a Ha].
  destruct (dropRun_suffix isSpace (reverse (dropRun isSpace s))) as [b Hb].
  exists a, (reverse b). rewrite Ha at 1. f_equal.
  rewrite <- reverse_app, <- Hb. by rewrite reverse_involutive.
Qed.

Lemma trim_last s c : last (trim s) = Some c -> isSpace c = false.
Proof. unfold trim. rewrite last_reverse. apply dropRun_head. Qed.

Lemma trim_head s c : head (trim s) = Some c -> isSpace c = false.
Proof.
  unfold trim. rewrite head_reverse. intros Hl.
  destruct (dropRun_suffix isSpace (reverse (dropRun isSpace s))) as [b Hb].
  assert (Hlast : last (reverse (dropRun isSpace s)) = Some c).
  { rewrite Hb, last_app, Hl. done. }
  rewrite last_reverse in Hlast. by apply dropRun_head in Hlast.
Qed.

Lemma ends_star_cls_elem p s x :
  x ∈ ends (star (Cls p)) s
  <-> exists w, s = w ++ x /\ Forall (fun c => p c = true) w.
Proof.
  unfold star. cbn [ends]. fold (ends (Plus (Cls p)) s).
  rewrite elem_of_app, ends_plus_cls_elem, list_elem_of_singleton. split.
  - intros [(w & -> & _ & Hw)| ->]; [by exists w|by exists []].
  - intros (w & -> & Hw). destruct w as [|c w]; [by right|].
    left. by exists (c :: w).
Qed.

Lemma titleHere_elem s g :
  g ∈ titleHere s ->
  exists a b, s = a ++ g ++ b /\ Forall (fun c => notLt c = true) g.
Proof.
  unfold titleHere. intros (s1 & H1 & H)%elem_of_flat_map.
  apply elem_of_flat_map in H as (s2 & H2 & H).
  apply list_elem_of_In, in_map_iff in H as (s3 & <- & _).
  apply ends_suffix in H1 as [a ->].
  apply ends_star_cls_elem in H2 as (w & -> & Hw).
  rewrite length_app, Nat.add_sub, take_app_length. by exists a, s2.
Qed.

Lemma titleMatch_elem s g :
  titleMatch s = Some g ->
  exists a b, s = a ++ g ++ b /\ Forall (fun c => notLt c = true) g.
Proof.
  induction s as [|c t IH]; cbn [titleMatch].
  - destruct (titleHere []) as [|x l] eqn:E; [done|]. cbn. intros [= <-].
    apply titleHere_elem. rewrite E. by left.
  - destruct (titleHere (c :: t)) as [|x l] eqn:E; cbn.
    + intros H. destruct (IH H) as (a & b & -> & Hg). by exists (c :: a), b.
    + intros [= <-]. apply titleHere_elem. rewrite E. by left.
Qed.

(** X15. A title that [extractTitle] returns is a piece of the page, holds
    no [<], and neither begins nor ends with white space. *)
Theorem X15_title_is_trimmed_text (html x : jstr) :
  extractTitle html = Some x ->
  (exists a b, html = a ++ x ++ b)
  /\ (60 ∉ x)
  /\ (forall c, head x = Some c -> isSpace c = false)
  /\ (forall c, last x = Some c -> isSpace c = false).
Proof.
  unfold extractTitle. destruct (titleMatch html) as [g|] eqn:Hg; [|done].
  cbn. intros [= <-]. apply titleMatch_elem in Hg as (a & b & -> & Hall).
  destruct (trim_part g) as (a' & b' & Hg). split; [|split; [|split]].
  - exists (a ++ a'), (b' ++ b). rewrite Hg at 1.
    by rewrite <- !app_assoc.
  - intros Hin. rewrite Forall_forall in Hall. specialize (Hall 60).
    rewrite Hg in Hall. by discriminate Hall; set_solver.
  - apply trim_head.
  - apply trim_last.
Qed.

Lemma X15_witness :
  (exists a b,
     js "<head><TITLE id=t>  A & B </title></head>" = a ++ js "A & B" ++ b)
  /\ (60 ∉ js "A & B")
  /\ (forall c, head (js "A & B") = Some c -> isSpace c = false)
  /\ (forall c, last (js "A & B") = Some c -> isSpace c = false).
Proof.
  apply (X15_title_is_trimmed_text
           (js "<head><TITLE id=t>  A & B </title></head>")).
  vm_compute. reflexivity.
Defined.

Lemma titleHere_nil s : ciPrefix (js "<title") s = false -> titleHere s = [].
Proof.
  intros H. unfold titleHere, titleOpen. by rewrite ends_seq_lits, H.
Qed.

Lemma head_flat_map_cons {A B} (f : A -> list B) (x : A) (l : list A) (y : B) :
  head (f x) = Some y -> head (flat_map f (x :: l)) = Some y.
Proof. cbn. by destruct (f x). Qed.

Lemma ciPrefix_self w s : ciPrefix w (w ++ s) = true.
Proof. induction w as [|c w IH]; [done|]. cbn. by rewrite N.eqb_refl, IH. Qed.

Lemma ends_lits_self w s : ends (lits w) (w ++ s) = [s].
Proof. by rewrite ends_lits, ciPrefix_self, drop_app_length. Qed.

Lemma head_ends_plus_cls p s :
  head (ends (Plus (Cls p)) s)
  = match s with
    | c :: t => if p c then Some (dropRun p t) else None
    | [] => None
    end.
Proof. cbn [ends]. apply head_iterate_cls. lia. Qed.

(** At a plain title element the first match takes the whole text between
    the tags. *)
Lemma titleHere_plain t rest :
  60 ∉ t ->
  head (titleHere (js "<title>" ++ t ++ js "</title>" ++ rest)) = Some t.
Proof.
  intros Ht. unfold titleHere, titleOpen.
  set (x := t ++ js "</title>" ++ rest).
  change (js "<title>" ++ x) with (js "<title" ++ 62 :: x).
  rewrite ends_seq_lits, ciPrefix_self, drop_app_length.
  assert (Ho : ends (Seq (star (Cls notGt)) (Lit 62)) (62 :: x) = [x]).
  { cbn [ends star]. cbn [iterate ends notGt]. done. }
  rewrite Ho. cbn [flat_map]. rewrite app_nil_r.
  assert (Hall : Forall (fun c => notLt c = true) t).
  { apply Forall_forall. intros c Hc. unfold notLt.
    apply negb_true_iff, N.eqb_neq. by intros ->. }
  assert (Hclose : forall s, ends titleClose (js "</title>" ++ s) = [s]).
  { intros s. apply ends_lits_self. }
  assert (Hlt : forall s c, head (js "</title>" ++ s) = Some c -> notLt c = false).
  { by intros s c [= <-]. }
  unfold star. cbn [ends]. fold (ends (Plus (Cls notLt)) x).
  pose proof (head_ends_plus_cls notLt x) as Hh. subst x.
  destruct t as [|c t].
  - cbn [app] in Hh |- *.
    destruct (ends (Plus (Cls notLt)) (js "</title>" ++ rest)) as [|a l].
    + cbn [app flat_map]. rewrite (Hclose rest). cbn. by rewrite Nat.sub_diag.
    + exfalso. revert Hh.
      change (js "</title>" ++ rest) with (60 :: js "/title>" ++ rest).
      done.
  - apply Forall_cons in Hall as [Hc Hall]. cbn [app] in Hh.
    rewrite Hc in Hh. rewrite dropRun_app_stop in Hh; [|done|apply Hlt].
    cbn [app].
    destruct (ends (Plus (Cls notLt)) (c :: t ++ js "</title>" ++ rest))
      as [|a l]; [done|]. cbn [head] in Hh.
    assert (a = js "</title>" ++ rest) as -> by congruence.
    cbn [app]. apply head_flat_map_cons. rewrite (Hclose rest). cbn [map head].
    f_equal. change (c :: t ++ js "</title>" ++ rest)
      with ((c :: t) ++ js "</title>" ++ rest).
    by rewrite length_app, Nat.add_sub, take_app_length.
Qed.

(** X16. Reading back a title: when the first [<title] of the page, in
    letters of either case, is a plain [<title>] tag and the text up to
    [</title>] holds no [<], [extractTitle] returns that text trimmed. *)
Theorem X16_title_read_back (pre t rest : jstr) :
  let html := pre ++ js "<title>" ++ t ++ js "</title>" ++ rest in
  (forall k, (k < length pre)%nat ->
     ciPrefix (js "<title") (drop k html) = false) ->
  60 ∉ t ->
  extractTitle html = Some (trim t).
Proof.
  intros html Hpre Ht. unfold extractTitle.
  assert (Hm : titleMatch html = Some t); [|by rewrite Hm].
  subst html. induction pre as [|c pre IH].
  - cbn [app]. set (s := js "<title>" ++ _).
    pose proof (titleHere_plain t rest Ht) as Hh. fold s in Hh.
    destruct s; cbn [titleMatch]; by rewrite Hh.
  - cbn [app titleMatch]. rewrite titleHere_nil by (apply (Hpre 0%nat); cbn; lia).
    cbn [head]. apply IH. intros k Hk. apply (Hpre (S k)). cbn. lia.
Qed.

Lemma X16_witness :
  extractTitle (js "<html><head>" ++ js "<title>" ++ js " Page Title "
                ++ js "</title>" ++ js "</head>")
  = Some (trim (js " Page Title ")).
Proof.
  apply (X16_title_read_back (js "<html><head>") (js " Page Title ")
           (js "</head>")).
  - intros k Hk. cbn in Hk.
    do 12 (destruct k as [|k]; [by vm_compute|]). lia.
  - vm_compute. intros H.
    repeat (apply elem_of_cons in H as [H|H]; [discriminate H|]).
    by apply elem_of_nil in H.
Defined.

(** * Counting brackets *)

Lemma pushLast_length res last0 :
  (length (pushLast res last0) <= S (length res))%nat.
Proof. destruct last0 as [[|c u]|]; cbn; rewrite ?length_app; cbn; lia. Qed.

Lemma scanStep_counts st ch :
  (length (results (scanStep st ch))
   <= length (results st) + (if decide (ch = RBR) then 1 else 0))%nat
  /\ (length (results (scanStep st ch)) + depth (scanStep st ch)
      <= length (results st) + depth st
         + (if decide (ch = LBR) then 1 else 0))%nat.
Proof.
  destruct st as [r d b l]. unfold scanStep.
  cbn [results depth buffer lastChar].
  pose proof (pushLast_length r (lastUrl b)) as Hp.
  destruct (N.eqb_spec ch LBR) as [HL|HL];
    destruct (N.eqb_spec ch RBR) as [HR|HR];
    [subst; discriminate|..];
    destruct (isEscapedBracket ch l); cbn [andb negb];
    destruct (decide (ch = RBR)); destruct (decide (ch = LBR)); try done;
    destruct d as [|[|d]]; cbn -[lastUrl]; lia.
Qed.

Lemma scanFrom_counts text : forall st,
  (length (results (scanFrom st text))
   <= length (results st) + occurrences RBR text)%nat
  /\ (length (results (scanFrom st text)) + depth (scanFrom st text)
      <= length (results st) + depth st + occurrences LBR text)%nat.
Proof.
  unfold occurrences. induction text as [|ch t IH]; intros st; [cbn; lia|].
  cbn [scanFrom foldl]. fold (scanFrom (scanStep st ch) t).
  destruct (IH (scanStep st ch)) as [H1 H2].
  destruct (scanStep_counts st ch) as [H3 H4].
  rewrite !filter_cons.
  destruct (decide (ch = RBR)); destruct (decide (ch = LBR)); cbn [length]; lia.
Qed.

(** X4. [parseUrls] gives at most one URL for each pair of brackets: never
    more URLs than the text has opening brackets, nor than it has closing
    brackets. *)
Theorem X4_at_most_one_url_per_bracket_pair (text : jstr) :
  (length (parseUrls text) <= occurrences LBR text)%nat
  /\ (length (parseUrls text) <= occurrences RBR text)%nat.
Proof.
  destruct (scanFrom_counts text scan0) as [H1 H2]. unfold parseUrls.
  cbn in H1, H2. lia.
Qed.
